(** * gphotosuploader: the upload pipeline of [main.go]

    A shallow embedding of the watcher side of the program: the timer map
    of [handleFileChange] and the function it hands to [time.AfterFunc],
    [checkIgnore], [startToWatch], [reuploadFailedFiles] and the two select
    loops [handleUploaderEvents] and [handleFileSystemEvents].

    Time is an integer count of clock ticks.  The table reached through
    [orm.GetInstance().Connection] is a finite map from path to status, and
    everything the program does to the outside (enqueueing an upload,
    adding a watch, a statement on the table, a log line) is appended to a
    time-stamped trace.  The file system, the ignore patterns and the
    watcher are given from outside: what [os.Stat] answers, what
    [filepath.Walk] visits, what [MatchString] says, whether
    [fsWatcher.Add] fails.

    The uploader itself, [utils.ConcurrentUploader], is not part of the
    sources at hand; module [pool] models it from sections 4.1, 4.3 and 5
    of the specification. *)

From Stdlib Require Import ZArith NArith Lia Bool.
From stdpp Require Import base option list sorting gmap strings fin_maps.

Open Scope Z_scope.

(** ** External declarations *)

(** [fsnotify.Op] is a bit set, [fsnotify.Event] a name with the operations
    that happened to it (fsnotify v1.7.0). *)
Module fsnotify.
Definition Op := N.
Definition Create : Op := N.shiftl 1 0.
Definition Write : Op := N.shiftl 1 1.
Definition Remove : Op := N.shiftl 1 2.
Definition Rename : Op := N.shiftl 1 3.
Definition Chmod : Op := N.shiftl 1 4.

Record Event := { Name : string; Op_ : Op }.
End fsnotify.

(** Modelled from the spec: the status column of [models.File]
    (orm/models is not among the sources); section 3 gives the record a
    path, which is its unique key, and a status out of these four. *)
Module models.
Inductive FileStatus := FilePending | FileSuccess | FileFailed | FileIgnored.

#[global] Instance FileStatus_eq_dec : EqDecision FileStatus.
Proof. solve_decision. Defined.

Record File := { Path : string; Status : FileStatus }.
End models.

(** A compiled pattern of [utils.PatternsToIgnore]; only [MatchString] is
    called on it. *)
Record Regexp := { MatchString : string → bool }.

(** [os.FileInfo], as far as the program looks at it. *)
Record FileInfo := { IsDir : bool }.

(** What the file system answers at one instant: [os.Stat] ([None] is the
    error result), the entries [filepath.Walk] hands to its callback, in
    its order, each with the [FileInfo] it got from [Lstat], and whether
    [fsWatcher.Add] reports an error for a path.  A walk in which [Lstat]
    fails, so that the callback is called with a nil [FileInfo], is not
    among these; [watchVisits] and [uploadVisits] below take it in. *)
Record FileSystem := {
  Stat : string → option FileInfo;
  Walk : string → list (string * FileInfo);
  AddErr : string → bool
}.

(** The package-level variables set by [parseCliArguments]. *)
Record Flags := {
  eventDelay : Z;
  watchRecursively : bool;
  patternsToIgnore : list Regexp;
  reuploadFailed : bool
}.

(** ** Program state *)

(** A [*time.Timer] made by [time.AfterFunc]: the instant it is due and
    whether it is still waiting (neither run nor stopped).  Its function is
    the closure of [handleFileChange] over the event, which the name it is
    stored under determines; the map holds the only reference to it. *)
Record Timer := { when : Z; pending : bool }.

Inductive Effect :=
| EnqueueUpload (path : string)      (* uploader.EnqueueUpload(path) *)
| WatcherAdd (path : string)         (* fsWatcher.Add(path) returned nil *)
| DbCreate (path : string)           (* the insert of FirstOrCreate *)
| DbDelete (path : string)           (* Unscoped().Delete *)
| LogIgnored (path : string)         (* "Ignored %s" *)
| LogConsuming (path : string)       (* "Finally consuming events for ..." *)
| LogStatError (path : string)       (* log.Println(err) after os.Stat *)
| PrintDeleted (path : string)       (* "Deleted record: %s" *)
| LogError (err : string)            (* log.Println(err) for a watcher error *)
| AckExiting.                        (* exiting <- true *)

#[global] Instance Effect_eq_dec : EqDecision Effect.
Proof. solve_decision. Defined.

Record State := {
  timers : gmap string Timer;               (* var timers *)
  db : gmap string models.FileStatus;       (* the files table *)
  trace : list (Z * Effect)
}.

Definition emit (now : Z) (e : Effect) (st : State) : State :=
  {| timers := timers st; db := db st; trace := trace st ++ [(now, e)] |}.

Definition set_timers (f : gmap string Timer → gmap string Timer) (st : State) : State :=
  {| timers := f (timers st); db := db st; trace := trace st |}.

Definition set_db (f : gmap string models.FileStatus → gmap string models.FileStatus)
    (st : State) : State :=
  {| timers := timers st; db := f (db st); trace := trace st |}.

Definition initial : State := {| timers := ∅; db := ∅; trace := [] |}.

(** ** The [time] package *)

(** The runtime's [when]: a duration that is not positive is due now.
    Instants are integers here; the runtime adds in 64 bits and takes the
    largest instant for a sum beyond them. *)
Definition runtime_when (now d : Z) : Z := if d <=? 0 then now else now + d.

Definition AfterFunc (now d : Z) : Timer :=
  {| when := runtime_when now d; pending := true |}.

(** [Stop] reports whether the call stopped the timer: false when it has
    already run or been stopped. *)
Definition Timer_Stop (t : Timer) : bool * Timer :=
  (pending t, {| when := when t; pending := false |}).

Definition Timer_Reset (now d : Z) (t : Timer) : Timer :=
  {| when := runtime_when now d; pending := true |}.

(** A [for { select { ... } }] loop run on the communications that reach
    it: it has returned, leaving the rest unread, or it is blocked in
    [select]. *)
Inductive Loop (S M : Type) :=
| Returned (st : S) (unread : list M)
| Blocked (st : S).
Arguments Returned {S M} st unread.
Arguments Blocked {S M} st.

Definition loopState {S M} (l : Loop S M) : S :=
  match l with Returned st _ => st | Blocked st => st end.

Section Program.

Variable flags : Flags.
(** The file system as the program finds it at each instant. *)
Variable os : Z → FileSystem.
(** The status of a record inserted without one: the zero value of the
    field, fixed by the declaration in orm/models. *)
Variable zeroStatus : models.FileStatus.

(** ** [checkIgnore] *)

Fixpoint matchAny (patterns : list Regexp) (path : string) : bool :=
  match patterns with
  | [] => false
  | pattern :: rest =>
      if MatchString pattern path then true else matchAny rest path
  end.

Definition checkIgnore (now : Z) (path : string) (st : State) : bool * State :=
  if matchAny (patternsToIgnore flags) path
  then (true, emit now (LogIgnored path) st)
  else (false, st).

(** ** [startToWatch] *)

(** [fsWatcher.Add]: the result is [true] for an error. *)
Definition fsWatcher_Add (now : Z) (path : string) (st : State) : bool * State :=
  if AddErr (os now) path then (true, st) else (false, emit now (WatcherAdd path) st).

(** The callback [startToWatch] gives to [filepath.Walk]. *)
Definition watchWalkFn (now : Z) (path : string) (file : FileInfo) (st : State)
    : bool * State :=
  if IsDir file then
    let '(ignore, st) := checkIgnore now path st in
    if negb ignore then fsWatcher_Add now path st else (false, st)
  else (false, st).

(** [filepath.Walk] with that callback: it stops at the first error the
    callback returns (the callback never returns [SkipDir]). *)
Fixpoint walkEntries (now : Z) (entries : list (string * FileInfo)) (st : State)
    : bool * State :=
  match entries with
  | [] => (false, st)
  | (path, file) :: rest =>
      let '(err, st) := watchWalkFn now path file st in
      if err then (true, st) else walkEntries now rest st
  end.

Definition startToWatch (now : Z) (filePath : string) (st : State) : bool * State :=
  if watchRecursively flags
  then walkEntries now (Walk (os now) filePath) st
  else fsWatcher_Add now filePath st.

(** ** [handleFileChange] *)

(** The function given to [time.AfterFunc]; [name] is the [event.Name] the
    closure captured, which is also the key the timer is stored under. *)
Definition timerFunc (now : Z) (name : string) (st : State) : State :=
  let st := emit now (LogConsuming name) st in
  match Stat (os now) name with
  | None => emit now (LogStatError name) st
  | Some info =>
      let '(upload, st) :=
        if negb (IsDir info)
        then let '(ignore, st) := checkIgnore now name st in (negb ignore, st)
        else (false, st) in
      if upload then emit now (EnqueueUpload name) st
      else if watchRecursively flags then snd (startToWatch now name st)
      else st
  end.

Definition isRemoveOrRename (op : fsnotify.Op) : bool :=
  (op =? fsnotify.Remove)%N || (op =? fsnotify.Rename)%N.

(** [Where(&models.File{Path: event.Name}).FirstOrCreate(&file)]: the
    record of the path, inserted with the zero status when there is none.
    This is the query for a name that is not empty.  For the empty name
    gorm drops the condition on the path and takes the first row of the
    table, which a table keyed by path does not tell: what is stated about
    the store below is stated for names that are not empty. *)
Definition FirstOrCreate (now : Z) (path : string) (st : State) : models.File * State :=
  match db st !! path with
  | Some s => ({| models.Path := path; models.Status := s |}, st)
  | None =>
      ({| models.Path := path; models.Status := zeroStatus |},
       emit now (DbCreate path) (set_db (insert path zeroStatus) st))
  end.

(** [Unscoped().Delete(&file)]: the record goes, by its key. *)
Definition Delete (now : Z) (file : models.File) (st : State) : State :=
  emit now (DbDelete (models.Path file)) (set_db (delete (models.Path file)) st).

Definition handleFileChange (now : Z) (event : fsnotify.Event) (st : State) : State :=
  let name := fsnotify.Name event in
  let op := fsnotify.Op_ event in
  match timers st !! name with
  | Some timer =>
      let '(cancelled, timer) := Timer_Stop timer in
      if cancelled && negb (op =? fsnotify.Remove)%N && negb (op =? fsnotify.Rename)%N
      then set_timers (insert name (Timer_Reset now (eventDelay flags) timer)) st
      else set_timers (insert name timer) st
  | None =>
      if negb (op =? fsnotify.Remove)%N && negb (op =? fsnotify.Rename)%N
      then set_timers (insert name (AfterFunc now (eventDelay flags))) st
      else if (op =? fsnotify.Rename)%N || (op =? fsnotify.Remove)%N
      then
        let '(ignore, st) := checkIgnore now name st in
        if negb ignore then
          let '(file, st) := FirstOrCreate now name st in
          let st := Delete now file st in
          emit now (PrintDeleted name) st
        else st
      else st
  end.

(** ** [reuploadFailedFiles] *)

(** [Connection.Not(models.File{Status: models.FileSuccess}).Find(&files)]:
    the records whose status is not [FileSuccess], in no particular order
    (the condition is there as long as [FileSuccess] is not the zero value
    of its type; section 4.1 of the specification reads the query so). *)
Definition findNotSuccess (table : gmap string models.FileStatus) : list models.File :=
  (λ kv, {| models.Path := kv.1; models.Status := kv.2 |}) <$>
  map_to_list (filter (λ kv, kv.2 ≠ models.FileSuccess) table).

Definition reuploadFailedFiles (now : Z) (st : State) : State :=
  if reuploadFailed flags
  then foldl (λ st f, emit now (EnqueueUpload (models.Path f)) st) st (findNotSuccess (db st))
  else st.

(** ** Timers running *)

(** The runtime runs a due timer: it stops waiting and its function is
    called at the instant it was set for. *)
Definition fire (st : State) (kt : string * Timer) : State :=
  timerFunc (when kt.2) kt.1
    (set_timers (insert kt.1 {| when := when kt.2; pending := false |}) st).

Definition isDue (t : Z) (kt : string * Timer) : Prop :=
  pending kt.2 = true ∧ when kt.2 ≤ t.

#[global] Instance isDue_dec t kt : Decision (isDue t kt).
Proof. unfold isDue. apply _. Defined.

Definition earlier (a b : string * Timer) : Prop := when a.2 ≤ when b.2.

#[global] Instance earlier_dec : RelDecision earlier.
Proof. intros a b. unfold earlier. apply _. Defined.

(** The waiting timers that are due by [t], earliest first. *)
Definition dueTimers (t : Z) (st : State) : list (string * Timer) :=
  merge_sort earlier (filter (isDue t) (map_to_list (timers st))).

(** Let the clock reach [t]: the timers due by then run, in the order of
    their instants.  A timer due exactly at [t] runs before what is
    received at [t] is handled. *)
Definition advance (t : Z) (st : State) : State :=
  foldl fire st (dueTimers t st).

(** ** [handleFileSystemEvents] *)

(** What the [select] of the loop receives: a value of [fsWatcher.Events],
    of [fsWatcher.Errors], or of [exiting]. *)
Inductive Received :=
| RecvEvent (event : fsnotify.Event)
| RecvError (err : string)
| RecvExiting.

Fixpoint handleFileSystemEvents (inbox : list (Z * Received)) (st : State)
    : Loop State (Z * Received) :=
  match inbox with
  | [] => Blocked st
  | (t, m) :: rest =>
      let st := advance t st in
      match m with
      | RecvEvent event => handleFileSystemEvents rest (handleFileChange t event st)
      | RecvError err => handleFileSystemEvents rest (emit t (LogError err) st)
      | RecvExiting => Returned (emit t AckExiting st) rest
      end
  end.

(** The loop on file events alone, each received at its instant, with the
    timers running in between. *)
Definition run (events : list (Z * fsnotify.Event)) (st : State) : State :=
  loopState (handleFileSystemEvents ((λ te, (te.1, RecvEvent te.2)) <$> events) st).

Definition runUntil (events : list (Z * fsnotify.Event)) (stop : Z) (st : State) : State :=
  advance stop (run events st).

End Program.

(** ** [handleUploaderEvents] *)

Module reporter.

(** What the [select] receives: a value of [uploader.CompletedUploads],
    [uploader.IgnoredUploads], [uploader.Errors], or of [exiting]. *)
Inductive Received :=
| Completed (info : string)
| Ignored (info : string)
| Failed (err : string)
| Exiting.

Inductive Line :=
| LogCompleted (info : string)
| LogNotUploading (info : string)
| LogUploadError (err : string).

(** Go's [int] on the 64-bit targets. *)
Definition wrap (z : Z) : Z := (z + 2 ^ 63) mod 2 ^ 64 - 2 ^ 63.
Definition incr (z : Z) : Z := wrap (z + 1).

Record Stats := {
  uploadedFilesCount : Z;
  ignoredCount : Z;
  errorsCount : Z;
  acks : nat;                  (* values sent back on [exiting] *)
  log : list Line
}.

Definition zero : Stats :=
  {| uploadedFilesCount := 0; ignoredCount := 0; errorsCount := 0; acks := 0; log := [] |}.

(** How a pass through the body of the [for] ends. *)
Inductive Control := NextIteration | Return.

(** One [select].  In the [exiting] case the [break] leaves the [select]
    statement, the innermost statement around it, so the [for] goes on. *)
Definition selectCase (m : Received) (s : Stats) : Control * Stats :=
  match m with
  | Completed info =>
      (NextIteration,
       {| uploadedFilesCount := incr (uploadedFilesCount s); ignoredCount := ignoredCount s;
          errorsCount := errorsCount s; acks := acks s;
          log := log s ++ [LogCompleted info] |})
  | Ignored info =>
      (NextIteration,
       {| uploadedFilesCount := uploadedFilesCount s; ignoredCount := incr (ignoredCount s);
          errorsCount := errorsCount s; acks := acks s;
          log := log s ++ [LogNotUploading info] |})
  | Failed err =>
      (NextIteration,
       {| uploadedFilesCount := uploadedFilesCount s; ignoredCount := ignoredCount s;
          errorsCount := incr (errorsCount s); acks := acks s;
          log := log s ++ [LogUploadError err] |})
  | Exiting =>
      (NextIteration,
       {| uploadedFilesCount := uploadedFilesCount s; ignoredCount := ignoredCount s;
          errorsCount := errorsCount s; acks := S (acks s); log := log s |})
  end.

Fixpoint handleUploaderEvents (inbox : list Received) (s : Stats) : Loop Stats Received :=
  match inbox with
  | [] => Blocked s
  | m :: rest =>
      match selectCase m s with
      | (NextIteration, s) => handleUploaderEvents rest s
      | (Return, s) => Returned s rest
      end
  end.

End reporter.

(** ** The upload worker pool *)

Module pool.
Import models.

Inductive Outcome :=
| completed (path : string)
| ignored (path : string)
| error (path cause : string).

Inductive UploadResult := Uploaded | UploadFailed (cause : string).

(** A statement that changed the store: the insert of a record, or a
    status written by [recordOutcome]. *)
Inductive StoreWrite :=
| Created (path : string)
| StatusSet (path : string) (status : FileStatus).

(** What step 1 finds for a path (missing, or excluded by a pattern) and
    what the Upload Operation answers to its n-th invocation. *)
Record World := {
  excluded : string → bool;
  Upload : nat → string → UploadResult
}.

Record Pipeline := {
  store : gmap string FileStatus;
  writes : list StoreWrite;
  invoked : list string;          (* calls of the Upload Operation *)
  outcomes : list Outcome
}.

Definition fresh : Pipeline :=
  {| store := ∅; writes := []; invoked := []; outcomes := [] |}.

Definition report (o : Outcome) (s : Pipeline) : Pipeline :=
  {| store := store s; writes := writes s; invoked := invoked s;
     outcomes := outcomes s ++ [o] |}.

Definition invoke (path : string) (s : Pipeline) : Pipeline :=
  {| store := store s; writes := writes s; invoked := invoked s ++ [path];
     outcomes := outcomes s |}.

(** Modelled from the spec: the Status Store contract of section 4.1,
    which the uploader of utils (not among the sources) calls:
    [upsertPending] creates the record if absent and leaves the status of
    a present one, [recordOutcome] sets the status unconditionally. *)
Definition upsertPending (path : string) (s : Pipeline) : Pipeline :=
  match store s !! path with
  | Some _ => s
  | None =>
      {| store := <[path := FilePending]> (store s); writes := writes s ++ [Created path];
         invoked := invoked s; outcomes := outcomes s |}
  end.

Definition recordOutcome (path : string) (status : FileStatus) (s : Pipeline) : Pipeline :=
  {| store := <[path := status]> (store s); writes := writes s ++ [StatusSet path status];
     invoked := invoked s; outcomes := outcomes s |}.

(** Modelled from the spec: the processing of one dequeued path by
    [utils.ConcurrentUploader] (utils is not among the sources), steps 1
    to 6 of section 4.3. *)
Definition process (w : World) (path : string) (s : Pipeline) : Pipeline :=
  if excluded w path then report (ignored path) s
  else if bool_decide (store s !! path = Some FileSuccess) then report (ignored path) s
  else
    let s := upsertPending path s in
    let result := Upload w (length (invoked s)) path in
    let s := invoke path s in
    match result with
    | Uploaded => report (completed path) (recordOutcome path FileSuccess s)
    | UploadFailed cause => report (error path cause) (recordOutcome path FileFailed s)
    end.

Definition processAll (w : World) (paths : list string) (s : Pipeline) : Pipeline :=
  foldl (λ s path, process w path s) s paths.

Definition setsStatusOf (path : string) (wr : StoreWrite) : Prop :=
  match wr with StatusSet p _ => p = path | Created _ => False end.

#[global] Instance setsStatusOf_dec path wr : Decision (setsStatusOf path wr).
Proof. destruct wr; simpl; apply _. Defined.

Definition statusWrites (path : string) (s : Pipeline) : list StoreWrite :=
  filter (setsStatusOf path) (writes s).

Definition invocations (path : string) (s : Pipeline) : list string :=
  filter (λ p, p = path) (invoked s).

(** Modelled from the spec: the tasks of the pool of
    [utils.ConcurrentUploader] (utils is not among the sources).  Section
    5 gives the pool up to N tasks that perform uploads, section 4.3 lets
    steps 1 to 3 run ahead of them.  A task is idle or inside step 4 for
    one path; [inFlight] is the counter of the bounded-concurrency
    property of section 8. *)
Record Pool := {
  workers : list (option string);
  queue : list string;            (* enqueued, steps 1 to 3 not yet done *)
  ready : list string;            (* steps 1 to 3 done, waiting for a task *)
  inFlight : nat
}.

Definition NewPool (n : nat) : Pool :=
  {| workers := replicate n None; queue := []; ready := []; inFlight := 0 |}.

Inductive Action :=
| Enqueue (path : string)
| Prepare
| Dispatch (i : nat)
| Complete (i : nat).

(** One move of the pool; [None] when the move is not possible in this
    state. *)
Definition act (a : Action) (p : Pool) : option Pool :=
  match a with
  | Enqueue path =>
      Some {| workers := workers p; queue := queue p ++ [path]; ready := ready p;
              inFlight := inFlight p |}
  | Prepare =>
      match queue p with
      | [] => None
      | path :: rest =>
          Some {| workers := workers p; queue := rest; ready := ready p ++ [path];
                  inFlight := inFlight p |}
      end
  | Dispatch i =>
      match workers p !! i, ready p with
      | Some None, path :: rest =>
          Some {| workers := <[i := Some path]> (workers p); queue := queue p; ready := rest;
                  inFlight := S (inFlight p) |}
      | _, _ => None
      end
  | Complete i =>
      match workers p !! i with
      | Some (Some _) =>
          Some {| workers := <[i := None]> (workers p); queue := queue p; ready := ready p;
                  inFlight := Nat.pred (inFlight p) |}
      | _ => None
      end
  end.

Fixpoint execute (actions : list Action) (p : Pool) : option Pool :=
  match actions with
  | [] => Some p
  | a :: rest =>
      match act a p with
      | Some p' => execute rest p'
      | None => None
      end
  end.

(** The uploads inside step 4. *)
Definition uploading (p : Pool) : list string := omap id (workers p).

End pool.

(** ** Observations *)

(** The instants at which [uploader.EnqueueUpload(path)] was called. *)
Definition uploadsOf (path : string) (tr : list (Z * Effect)) : list Z :=
  (filter (λ te, te.2 = EnqueueUpload path) tr).*1.

(** The paths handed to [uploader.EnqueueUpload] and to [fsWatcher.Add]. *)
Definition uploadsIn (tr : list (Z * Effect)) : list string :=
  omap (λ te, match te.2 with EnqueueUpload p => Some p | _ => None end) tr.

Definition watchesIn (tr : list (Z * Effect)) : list string :=
  omap (λ te, match te.2 with WatcherAdd p => Some p | _ => None end) tr.

(** How often the store was told to delete the record of [path]. *)
Definition deletionsOf (path : string) (tr : list (Z * Effect)) : nat :=
  length (filter (λ te, te.2 = DbDelete path) tr).

(** What was appended to the trace between two states. *)
Definition since (before after : State) : list (Z * Effect) :=
  drop (length (trace before)) (trace after).

(** The trace of [st'] continues the one of [st]. *)
Definition extends (st st' : State) : Prop := ∃ added, trace st' = trace st ++ added.

(** The instants of the notifications for [path]. *)
Definition eventTimes (path : string) (events : list (Z * fsnotify.Event)) : list Z :=
  (filter (λ te, fsnotify.Name te.2 = path) events).*1.

(** Each instant is less than [d] after the one before it. *)
Fixpoint gapsBelow (d : Z) (ts : list Z) : Prop :=
  match ts with
  | a :: (b :: _) as rest => b - a < d ∧ gapsBelow d rest
  | _ => True
  end.

(** An entry of a walk that [startToWatch] adds to the watcher: a directory
    that matches no ignore pattern. *)
Definition watchable (flags : Flags) (entry : string * FileInfo) : Prop :=
  IsDir entry.2 = true ∧ matchAny (patternsToIgnore flags) entry.1 = false.

#[global] Instance watchable_dec flags entry : Decision (watchable flags entry).
Proof. unfold watchable. apply _. Defined.

(** The test of the timer function that leads to [uploader.EnqueueUpload]:
    [os.Stat] succeeds, the file is not a directory and [checkIgnore] is
    false. *)
Definition uploadable (flags : Flags) (fs : FileSystem) (path : string) : bool :=
  match Stat fs path with
  | Some info => negb (IsDir info) && negb (matchAny (patternsToIgnore flags) path)
  | None => false
  end.

(** The timer once the runtime has run it, or [Stop] has stopped it. *)
Definition spent (timer : Timer) : Timer := {| when := when timer; pending := false |}.

(** The instants at which the firing of the timer stored under [k] calls
    [uploader.EnqueueUpload]: the one it was set for, when the test passes. *)
Definition settled (flags : Flags) (os : Z → FileSystem) (k : string) (timer : Timer)
    : list Z :=
  if uploadable flags (os (when timer)) k then [when timer] else [].

(** Nothing in the list is a call of [uploader.EnqueueUpload]. *)
Definition quiet (tr : list (Z * Effect)) : Prop :=
  Forall (λ te, ∀ path, te.2 ≠ EnqueueUpload path) tr.

(** ** Sample configurations *)

Module sample.
Import models.

Definition photo : string := "/watch/a.jpg".
Definition cache : string := "/watch/cache".
Definition album : string := "/watch/cache/2024".
Definition scratch : string := "/watch/a.tmp".
Definition other : string := "/watch/b.jpg".

(** The patterns [^/watch/cache$] and [^/watch/a\.tmp$]. *)
Definition cachePattern : Regexp := {| MatchString := String.eqb cache |}.
Definition scratchPattern : Regexp := {| MatchString := String.eqb scratch |}.

Definition flags : Flags :=
  {| eventDelay := 3; watchRecursively := true; patternsToIgnore := [cachePattern; scratchPattern];
     reuploadFailed := true |}.

Definition file : FileInfo := {| IsDir := false |}.
Definition dir : FileInfo := {| IsDir := true |}.

(** [/watch] holds two photos, a scratch file and the directory [cache],
    which holds the directory [2024]. *)
Definition disk : FileSystem :=
  {| Stat := λ p,
       if String.eqb p photo then Some file
       else if String.eqb p other then Some file
       else if String.eqb p scratch then Some file
       else if String.eqb p cache then Some dir
       else if String.eqb p album then Some dir
       else None;
     Walk := λ p,
       if String.eqb p cache then [(cache, dir); (album, dir)]
       else if String.eqb p album then [(album, dir)]
       else [(p, file)];
     AddErr := λ _, false |}.

Definition os (t : Z) : FileSystem := disk.

Definition notify (op : fsnotify.Op) (path : string) : fsnotify.Event :=
  {| fsnotify.Name := path; fsnotify.Op_ := op |}.

(** The table {A: Success, B: Failed, C: Pending}. *)
Definition table : gmap string FileStatus :=
  <["A" := FileSuccess]> (<["B" := FileFailed]> (<["C" := FilePending]> ∅)).

Definition withTable (t : gmap string FileStatus) : State :=
  {| timers := ∅; db := t; trace := [] |}.

Definition uploaded : State := withTable {[ photo := FileSuccess ]}.

Definition world : pool.World :=
  {| pool.excluded := λ _, false; pool.Upload := λ _ _, pool.Uploaded |}.
End sample.

(** * The rest of the program *)

(** ** [uploadArgumentsFiles] *)

(** The callback [uploadArgumentsFiles] gives to [filepath.Walk]; it always
    returns nil, so the walk goes through all its entries. *)
Definition uploadWalkFn (flags : Flags) (now : Z) (path : string) (file : FileInfo)
    (st : State) : State :=
  if negb (IsDir file) then
    let '(ignore, st) := checkIgnore flags now path st in
    if negb ignore then emit now (EnqueueUpload path) st else st
  else st.

(** What [filepath.Walk] hands to its callback, call by call: the path with
    its [FileInfo], or with nil ([None]) when [Lstat] failed on it, as for
    a root that does not exist or an entry that went away during the walk.
    Both callbacks of the program call [file.IsDir()] first, which panics
    on nil; [main] recovers from no panic. *)
Fixpoint beforeNil (visits : list (string * option FileInfo)) : list (string * FileInfo) :=
  match visits with
  | (path, Some file) :: rest => (path, file) :: beforeNil rest
  | _ => []
  end.

Definition hasNil (visits : list (string * option FileInfo)) : bool :=
  existsb (λ visit, match visit.2 with None => true | Some _ => false end) visits.

(** One [filepath.Walk] of [uploadArgumentsFiles]; [true] stands for the
    panic, and the state is then the one reached before it. *)
Fixpoint uploadVisits (flags : Flags) (now : Z) (visits : list (string * option FileInfo))
    (st : State) : bool * State :=
  match visits with
  | [] => (false, st)
  | (path, None) :: _ => (true, st)
  | (path, Some file) :: rest => uploadVisits flags now rest (uploadWalkFn flags now path file st)
  end.

(** [filesToUpload] is the package variable filled by the [-upload] flags,
    [walk] gives the calls [filepath.Walk] makes for a root. *)
Fixpoint uploadArgumentsFiles (flags : Flags) (walk : string → list (string * option FileInfo))
    (now : Z) (filesToUpload : list string) (st : State) : bool * State :=
  match filesToUpload with
  | [] => (false, st)
  | name :: rest =>
      let '(panicked, st) := uploadVisits flags now (walk name) st in
      if panicked then (true, st) else uploadArgumentsFiles flags walk now rest st
  end.

(** An entry of a walk that [uploadArgumentsFiles] enqueues. *)
Definition enqueueable (flags : Flags) (entry : string * FileInfo) : Prop :=
  IsDir entry.2 = false ∧ matchAny (patternsToIgnore flags) entry.1 = false.

#[global] Instance enqueueable_dec flags entry : Decision (enqueueable flags entry).
Proof. unfold enqueueable. apply _. Defined.

(** ** [startToWatch] with the failures of the walk *)

Inductive Ended := Fine | Failed | Panicked.

(** The walk of [startToWatch] on the calls of [filepath.Walk] as they
    come: the callback panics on a nil [FileInfo], and the walk stops at
    the first error the callback returns. *)
Fixpoint watchVisits (flags : Flags) (os : Z → FileSystem) (now : Z)
    (visits : list (string * option FileInfo)) (st : State) : Ended * State :=
  match visits with
  | [] => (Fine, st)
  | (path, None) :: _ => (Panicked, st)
  | (path, Some file) :: rest =>
      let '(err, st) := watchWalkFn flags os now path file st in
      if err then (Failed, st) else watchVisits flags os now rest st
  end.

(** [startToWatch], the calls of [filepath.Walk] for [filePath] given.  On
    a walk whose calls all come with a [FileInfo] this is [startToWatch]
    above, which the timer function calls after [os.Stat] has found the
    path. *)
Definition startToWatchFrom (flags : Flags) (os : Z → FileSystem) (now : Z)
    (visits : list (string * option FileInfo)) (filePath : string) (st : State)
    : Ended * State :=
  if watchRecursively flags then watchVisits flags os now visits st
  else
    let '(err, st) := fsWatcher_Add os now filePath st in
    (if err then Failed else Fine, st).

(** ** [parseCliArguments]: the delay *)

(** [eventDelay], the flag's number of seconds converted to
    [time.Duration] and multiplied by [time.Second]: a product of 64-bit
    integers, in nanoseconds. *)
Definition Second : Z := 1000000000.
Definition durationOfSeconds (delay : Z) : Z := reporter.wrap (delay * Second).

(** ** [api.AtTokenScraper] *)

Module api.
Import Stdlib.Strings.Ascii.

(** What a Go call ends in: a value, an error value, or a run-time panic. *)
Inductive Result (A : Type) :=
| Ok (a : A)
| Err (e : string)
| Panic.
Arguments Ok {A} a.
Arguments Err {A} e.
Arguments Panic {A}.

(** The tokens of [html.Tokenizer] other than [ErrorToken], which ends the
    stream. *)
Inductive TokenType :=
| TextToken | StartTagToken | EndTagToken | SelfClosingTagToken
| CommentToken | DoctypeToken.

#[global] Instance TokenType_eq_dec : EqDecision TokenType.
Proof. solve_decision. Defined.

Record Attribute := { Key : string; Val : string }.

Record Token := { Type_ : TokenType; Data : string; Attr : list Attribute }.

(** The inner loop of [findScript] over [curToken.Attr]. *)
Fixpoint hasDataId (attrs : list Attribute) : bool :=
  match attrs with
  | [] => false
  | attr :: rest =>
      if String.eqb (Key attr) "data-id" && String.eqb (Val attr) "_gd" then true
      else hasDataId rest
  end.

Definition isTokenScript (curToken : Token) : bool :=
  bool_decide (Type_ curToken = StartTagToken) && String.eqb (Data curToken) "script"
  && hasDataId (Attr curToken).

Definition noScriptTag : string :=
  "can't find the script tag with the token in the response".

(** [findScript] on the tokens the tokenizer yields before [ErrorToken].
    After the tag it calls [Next] once more and returns the data of the
    token it is then at; at the end of the stream this is the token of
    [ErrorToken], whose data is empty. *)
Fixpoint findScript (page : list Token) : Result string :=
  match page with
  | [] => Err noScriptTag
  | curToken :: rest =>
      if isTokenScript curToken then
        match rest with
        | [] => Ok ""
        | next :: _ => Ok (Data next)
        end
      else findScript rest
  end.

(** [strings.Index(s, "=")] for a one-byte separator: the offset of its
    first occurrence, or -1. *)
Fixpoint indexByte (c : Ascii.ascii) (s : string) : Z :=
  match s with
  | EmptyString => -1
  | String b rest =>
      if Ascii.eqb b c then 0
      else let i := indexByte c rest in if i <? 0 then -1 else i + 1
  end.

(** [s[start:end]]: a panic unless 0 <= start <= end <= len(s). *)
Definition slice (s : string) (start end_ : Z) : option string :=
  if (0 <=? start) && (start <=? end_) && (end_ <=? Z.of_nat (String.length s))
  then Some (String.substring (Z.to_nat start) (Z.to_nat (end_ - start)) s)
  else None.

(** What the program has from outside: how building and sending the
    request ends, and what the JSON decoder makes of a text (the field
    [Token] of the decoded [ApiTokenContainer], or its error). *)
Record Web := {
  newRequest : option string;                 (* the error of http.NewRequest *)
  clientDo : string + list Token;             (* the error of Client.Do, or the page *)
  decodeToken : string → string + string      (* the error of Decode, or object.Token *)
}.

(** [findTokenInScript]: the result, and what it writes to the log
    before decoding. *)
Definition findTokenInScript (web : Web) (script : string) : list string * Result string :=
  let equalsIndex := indexByte "="%char script in
  let start := equalsIndex + 1 in
  let end_ := Z.of_nat (String.length script) - 1 in
  match slice script start end_ with
  | None => ([], Panic)
  | Some script =>
      ([script],
       match decodeToken web script with
       | inl err => Err ("can't parse the JSON object that contains the at token (" ++ err ++ ")")
       | inr token => Ok token
       end)
  end.

Definition getHomePage (web : Web) : Result (list Token) :=
  match newRequest web with
  | Some err =>
      Err ("can't create the request to get the Google Photos homepage (" ++ err ++ ")")
  | None =>
      match clientDo web with
      | inl err =>
          Err ("can't complete the request to get the Google Photos homepage (" ++ err ++ ")")
      | inr res => Ok res
      end
  end.

Definition ScrapeNewAtToken (web : Web) : list string * Result string :=
  match getHomePage web with
  | Ok page =>
      match findScript page with
      | Ok script => findTokenInScript web script
      | Err e => ([], Err e)
      | Panic => ([], Panic)
      end
  | Err e => ([], Err e)
  | Panic => ([], Panic)
  end.

End api.

(** ** [orm.GetInstance] *)

Module orm.

(** What [gorm.Open] returns: the connection, and an error or none. *)
Record Opened := { connection : string; openErr : option string }.

(** The package variables [instance] and [once], and how often the
    database was opened and migrated. *)
Record Package := {
  instance : option string;      (* the Connection of *instance, once set *)
  onceDone : bool;
  opens : nat;
  migrations : nat
}.

Definition start : Package :=
  {| instance := None; onceDone := false; opens := 0; migrations := 0 |}.

(** The function given to [once.Do].  The result of [AutoMigrate] is not
    assigned, so the second test of [err] sees the error of [gorm.Open]
    again, which is nil there.  [true] stands for the panic. *)
Definition openDatabase (opened : Opened) (migrateErr : option string) (p : Package)
    : bool * Package :=
  let p := {| instance := Some (connection opened); onceDone := onceDone p;
              opens := S (opens p); migrations := migrations p |} in
  match openErr opened with
  | Some _ => (true, p)
  | None =>
      let p := {| instance := instance p; onceDone := onceDone p; opens := opens p;
                  migrations := S (migrations p) |} in
      match openErr opened with
      | Some _ => (true, p)
      | None => (false, p)
      end
  end.

(** [GetInstance]: [once.Do] runs the function on the first call only, and
    counts the call as done also when the function panics.  The result is
    the connection of the instance, or [None] for the panic. *)
Definition GetInstance (opened : Opened) (migrateErr : option string) (p : Package)
    : option string * Package :=
  if onceDone p then (instance p, p)
  else
    let p := {| instance := instance p; onceDone := true; opens := opens p;
                migrations := migrations p |} in
    let '(panicked, p) := openDatabase opened migrateErr p in
    if panicked then (None, p) else (instance p, p).

(** Calls one after the other, a panic being recovered by the caller; each
    call comes with what [gorm.Open] and [AutoMigrate] would answer then. *)
Fixpoint calls (answers : list (Opened * option string)) (p : Package)
    : list (option string) * Package :=
  match answers with
  | [] => ([], p)
  | (opened, migrateErr) :: rest =>
      let '(r, p) := GetInstance opened migrateErr p in
      let '(rs, p) := calls rest p in
      (r :: rs, p)
  end.

End orm.

(** No byte of the string is [c]. *)
Fixpoint without (c : Ascii.ascii) (s : string) : Prop :=
  match s with
  | EmptyString => True
  | String b rest => b ≠ c ∧ without c rest
  end.

(** ** What the watcher sends to the table *)

(** The paths of the inserts and deletes in a trace. *)
Definition tableStatements (tr : list (Z * Effect)) : list string :=
  omap (λ te, match te.2 with
              | DbCreate path | DbDelete path => Some path
              | _ => None
              end) tr.

(** From [st] to [st'] the trace grew, and every insert or delete in what
    was added is of a path in [Q]. *)
Definition sends (Q : string → Prop) (st st' : State) : Prop :=
  ∃ added, trace st' = trace st ++ added ∧ Forall Q (tableStatements added).

(** ** Counting what a loop received *)

Definition isCompleted (m : reporter.Received) : bool :=
  match m with reporter.Completed _ => true | _ => false end.
Definition isIgnored (m : reporter.Received) : bool :=
  match m with reporter.Ignored _ => true | _ => false end.
Definition isFailed (m : reporter.Received) : bool :=
  match m with reporter.Failed _ => true | _ => false end.
Definition isExiting (m : reporter.Received) : bool :=
  match m with reporter.Exiting => true | _ => false end.

Definition countIf {A} (f : A → bool) (l : list A) : nat := length (List.filter f l).

(** ** A sample page *)

Module samplePage.
Import api.

Definition head : Token := {| Type_ := StartTagToken; Data := "head"; Attr := [] |}.

Definition plainScript : Token :=
  {| Type_ := StartTagToken; Data := "script";
     Attr := [{| Key := "nonce"; Val := "k1" |}] |}.

Definition tag : Token :=
  {| Type_ := StartTagToken; Data := "script";
     Attr := [{| Key := "nonce"; Val := "k1" |}; {| Key := "data-id"; Val := "_gd" |}] |}.

Definition text : Token :=
  {| Type_ := TextToken; Data := "window.WIZ_global_data = {at};"; Attr := [] |}.

Definition close : Token := {| Type_ := EndTagToken; Data := "script"; Attr := [] |}.

Definition page : list Token := [head; plainScript; close; tag; text; close].

(** A decoder that knows one text. *)
Definition web : Web :=
  {| newRequest := None;
     clientDo := inr page;
     decodeToken := λ s, if String.eqb s " {at}" then inr "AKd3" else inl "invalid character" |}.

End samplePage.

(** * Properties *)

(** ** Frame lemmas *)

Section Frames.

Variable flags : Flags.
Variable os : Z → FileSystem.
Variable zeroStatus : models.FileStatus.

Lemma checkIgnore_result now path st :
  (checkIgnore flags now path st).1 = matchAny (patternsToIgnore flags) path.
Proof. unfold checkIgnore. by destruct (matchAny _ _). Qed.

Lemma checkIgnore_frame now path st :
  timers (checkIgnore flags now path st).2 = timers st ∧
  db (checkIgnore flags now path st).2 = db st ∧
  (trace (checkIgnore flags now path st).2 = trace st ∨
   trace (checkIgnore flags now path st).2 = trace st ++ [(now, LogIgnored path)]).
Proof. unfold checkIgnore. destruct (matchAny _ _); simpl; auto. Qed.

End Frames.

(** ** Removal and rename notifications *)

Section Removal.

Variable flags : Flags.
Variable zeroStatus : models.FileStatus.

Lemma since_same st st' : trace st' = trace st → since st st' = [].
Proof. intros E. unfold since. rewrite E. apply drop_all. Qed.

Lemma since_app st st' l : trace st' = trace st ++ l → since st st' = l.
Proof. intros E. unfold since. rewrite E. apply drop_app_length. Qed.

Lemma isRemoveOrRename_guard op :
  isRemoveOrRename op = true →
  negb (op =? fsnotify.Remove)%N && negb (op =? fsnotify.Rename)%N = false.
Proof. unfold isRemoveOrRename. destruct (_ =? _)%N, (_ =? _)%N; simpl; congruence. Qed.

(** With a timer stored under the name, the first branch is taken: a
    removal stops the timer and nothing else happens. *)
Lemma handleFileChange_removal_with_timer now event st timer :
  timers st !! fsnotify.Name event = Some timer →
  isRemoveOrRename (fsnotify.Op_ event) = true →
  handleFileChange flags zeroStatus now event st =
  set_timers (insert (fsnotify.Name event) {| when := when timer; pending := false |}) st.
Proof.
  intros Ht Hop. unfold handleFileChange. rewrite Ht. simpl.
  apply isRemoveOrRename_guard in Hop.
  rewrite <- andb_assoc, Hop, andb_false_r. reflexivity.
Qed.

Lemma handleFileChange_removal_no_timer now event st :
  timers st !! fsnotify.Name event = None →
  isRemoveOrRename (fsnotify.Op_ event) = true →
  handleFileChange flags zeroStatus now event st =
  let name := fsnotify.Name event in
  let '(ignore, st) := checkIgnore flags now name st in
  if negb ignore then
    let '(file, st) := FirstOrCreate zeroStatus now name st in
    emit now (PrintDeleted name) (Delete now file st)
  else st.
Proof.
  intros Ht Hop. unfold handleFileChange. rewrite Ht.
  rewrite (isRemoveOrRename_guard _ Hop).
  unfold isRemoveOrRename in Hop. rewrite orb_comm in Hop. rewrite Hop. reflexivity.
Qed.

(** C10: a remove or rename notification for a path that matches an ignore
    pattern leaves the store as it was: no record is created or deleted,
    and the only thing that may be added to the trace is the log line of
    [checkIgnore]. *)
Theorem ignored_removal_leaves_store now event st :
  isRemoveOrRename (fsnotify.Op_ event) = true →
  matchAny (patternsToIgnore flags) (fsnotify.Name event) = true →
  db (handleFileChange flags zeroStatus now event st) = db st ∧
  (since st (handleFileChange flags zeroStatus now event st) = [] ∨
   since st (handleFileChange flags zeroStatus now event st)
     = [(now, LogIgnored (fsnotify.Name event))]).
Proof.
  intros Hop Hign.
  destruct (timers st !! fsnotify.Name event) as [timer|] eqn:Ht.
  - rewrite (handleFileChange_removal_with_timer _ _ _ _ Ht Hop).
    split; [reflexivity | left; by apply since_same].
  - rewrite (handleFileChange_removal_no_timer _ _ _ Ht Hop).
    cbv zeta. unfold checkIgnore. rewrite Hign. simpl.
    split; [reflexivity | right; by apply since_app].
Qed.

(** The branch that deletes: with no timer stored under the name, the
    name not empty and not ignored, a remove or rename notification leaves
    the store without a record for the path, whatever it held before, and
    a second such notification leaves the store as the first one left
    it. *)
Lemma removal_without_timer_deletes_record now event st :
  fsnotify.Name event ≠ "" →
  timers st !! fsnotify.Name event = None →
  isRemoveOrRename (fsnotify.Op_ event) = true →
  matchAny (patternsToIgnore flags) (fsnotify.Name event) = false →
  db (handleFileChange flags zeroStatus now event st) !! fsnotify.Name event = None ∧
  db (handleFileChange flags zeroStatus now event st) = delete (fsnotify.Name event) (db st) ∧
  ∀ now' event',
    fsnotify.Name event' = fsnotify.Name event →
    isRemoveOrRename (fsnotify.Op_ event') = true →
    db (handleFileChange flags zeroStatus now' event'
          (handleFileChange flags zeroStatus now event st))
    = db (handleFileChange flags zeroStatus now event st).
Proof.
  intros _ Ht Hop Hign.
  assert (Hfirst : ∀ now0 ev0 st0,
    fsnotify.Name ev0 = fsnotify.Name event →
    timers st0 !! fsnotify.Name event = None →
    isRemoveOrRename (fsnotify.Op_ ev0) = true →
    db (handleFileChange flags zeroStatus now0 ev0 st0) = delete (fsnotify.Name event) (db st0) ∧
    timers (handleFileChange flags zeroStatus now0 ev0 st0) = timers st0).
  { intros now0 ev0 st0 Hn Ht0 Hop0.
    rewrite handleFileChange_removal_no_timer by (by rewrite ?Hn).
    cbv zeta. rewrite Hn. unfold checkIgnore. rewrite Hign. simpl.
    unfold FirstOrCreate. destruct (db st0 !! fsnotify.Name event) eqn:Hdb; simpl.
    - done.
    - split; [|done]. rewrite delete_insert_eq. by rewrite delete_id. }
  destruct (Hfirst now event st eq_refl Ht Hop) as [Hdb Htm].
  split; [|split].
  - rewrite Hdb. apply lookup_delete_eq.
  - exact Hdb.
  - intros now' event' Hn Hop'.
    destruct (Hfirst now' event' (handleFileChange flags zeroStatus now event st) Hn) as [Hdb' _];
      [by rewrite Htm | done |].
    rewrite Hdb', Hdb, delete_delete_eq. reflexivity.
Qed.

End Removal.

(** A removal of the ignored directory. *)
Lemma ignored_removal_leaves_store_witness :
  db (handleFileChange sample.flags models.FilePending 5
        (sample.notify fsnotify.Remove sample.cache) sample.uploaded)
  = db sample.uploaded.
Proof.
  apply (ignored_removal_leaves_store sample.flags models.FilePending 5
           (sample.notify fsnotify.Remove sample.cache) sample.uploaded);
    reflexivity.
Defined.

(** A rename of the photo, which has a record and no timer. *)
Lemma removal_without_timer_sample :
  db (handleFileChange sample.flags models.FilePending 5
        (sample.notify fsnotify.Rename sample.photo) sample.uploaded) !! sample.photo = None.
Proof.
  apply (removal_without_timer_deletes_record sample.flags models.FilePending 5
           (sample.notify fsnotify.Rename sample.photo) sample.uploaded);
    [discriminate | reflexivity | reflexivity | reflexivity].
Qed.

(** ** A removal while the timer waits *)

(** C1: a write notification for the photo at 0 arms its timer for 3; the
    remove notification at 1 stops it, and no upload is enqueued
    afterwards.  The record the store held for the photo is still there:
    the store was never told to delete it. *)
Theorem removal_with_waiting_timer_keeps_record :
  let events := [(0, sample.notify fsnotify.Write sample.photo);
                 (1, sample.notify fsnotify.Remove sample.photo)] in
  let st := runUntil sample.flags sample.os models.FilePending events 100 sample.uploaded in
  timers st !! sample.photo = Some {| when := 3; pending := false |} ∧
  uploadsOf sample.photo (trace st) = [] ∧
  deletionsOf sample.photo (trace st) = 0%nat ∧
  db st !! sample.photo = Some models.FileSuccess.
Proof. vm_compute. auto. Qed.

(** ** A removal after the timer has run *)

(** C9: the photo, which has a record, is written at 0 and its timer runs
    at 3.  At 10, when no timer waits for the path any more and the path
    matches no ignore pattern, it is removed, and again at 11.  The spent
    timer is still stored under the path, so both notifications take the
    branch of a stored timer: the store is never told to delete the record
    and still holds it. *)
Theorem removal_after_settle_keeps_record :
  let before :=
    runUntil sample.flags sample.os models.FilePending
      [(0, sample.notify fsnotify.Write sample.photo)] 10 sample.uploaded in
  let st :=
    runUntil sample.flags sample.os models.FilePending
      [(0, sample.notify fsnotify.Write sample.photo);
       (10, sample.notify fsnotify.Remove sample.photo);
       (11, sample.notify fsnotify.Remove sample.photo)] 100 sample.uploaded in
  timers before !! sample.photo = Some {| when := 3; pending := false |} ∧
  matchAny (patternsToIgnore sample.flags) sample.photo = false ∧
  deletionsOf sample.photo (trace st) = 0%nat ∧
  db st !! sample.photo = Some models.FileSuccess.
Proof. vm_compute. auto. Qed.

(** ** The retry scan *)

Lemma foldl_enqueue now (files : list models.File) st :
  let st' := foldl (λ st f, emit now (EnqueueUpload (models.Path f)) st) st files in
  timers st' = timers st ∧ db st' = db st ∧
  trace st' = trace st ++ ((λ f, (now, EnqueueUpload (models.Path f))) <$> files).
Proof.
  revert st. induction files as [|f files IH]; intros st; simpl.
  - by rewrite app_nil_r.
  - destruct (IH (emit now (EnqueueUpload (models.Path f)) st)) as (Ht & Hd & Htr).
    rewrite Ht, Hd, Htr. simpl. by rewrite <- app_assoc.
Qed.

Lemma uploadsIn_enqueues now (files : list models.File) :
  uploadsIn ((λ f, (now, EnqueueUpload (models.Path f))) <$> files) = models.Path <$> files.
Proof. induction files as [|f files IH]; simpl; [done | f_equal; apply IH]. Qed.

Lemma findNotSuccess_paths (table : gmap string models.FileStatus) :
  models.Path <$> findNotSuccess table
  = (map_to_list (filter (λ kv, kv.2 ≠ models.FileSuccess) table)).*1.
Proof.
  unfold findNotSuccess. rewrite <- list_fmap_compose. reflexivity.
Qed.

(** C3: the retry scan, when asked for, enqueues the paths of the records
    whose status is not Success, each once, and nothing else; it does not
    touch the store. *)
Theorem retry_scan_enqueues_not_success flags now st :
  reuploadFailed flags = true →
  db (reuploadFailedFiles flags now st) = db st ∧
  NoDup (uploadsIn (since st (reuploadFailedFiles flags now st))) ∧
  length (uploadsIn (since st (reuploadFailedFiles flags now st)))
    = length (since st (reuploadFailedFiles flags now st)) ∧
  ∀ path, path ∈ uploadsIn (since st (reuploadFailedFiles flags now st)) ↔
          ∃ status, db st !! path = Some status ∧ status ≠ models.FileSuccess.
Proof.
  intros Hflag. unfold reuploadFailedFiles. rewrite Hflag.
  destruct (foldl_enqueue now (findNotSuccess (db st)) st) as (_ & Hd & Htr).
  cbv zeta in Hd, Htr.
  rewrite (since_app _ _ _ Htr), uploadsIn_enqueues, findNotSuccess_paths.
  split; [exact Hd | split; [apply NoDup_fst_map_to_list | split]].
  - unfold findNotSuccess. rewrite !length_fmap. reflexivity.
  - intros path. rewrite list_elem_of_fmap. split.
    + intros ([k s] & -> & Hin). apply elem_of_map_to_list in Hin.
      apply map_lookup_filter_Some in Hin as [Hl Hs]. eauto.
    + intros (s & Hl & Hs). exists (path, s). split; [done|].
      apply elem_of_map_to_list. by apply map_lookup_filter_Some.
Qed.

(** Its instance at the table {A: Success, B: Failed, C: Pending}. *)
Lemma retry_scan_enqueues_not_success_witness :
  reuploadFailed sample.flags = true ∧
  db (reuploadFailedFiles sample.flags 0 (sample.withTable sample.table)) = sample.table ∧
  ∀ path, path ∈ uploadsIn (since (sample.withTable sample.table)
                              (reuploadFailedFiles sample.flags 0 (sample.withTable sample.table)))
          ↔ ∃ status, sample.table !! path = Some status ∧ status ≠ models.FileSuccess.
Proof.
  pose proof (retry_scan_enqueues_not_success sample.flags 0 (sample.withTable sample.table) eq_refl)
    as (Hd & _ & _ & Hp).
  split; [reflexivity | split; [exact Hd | exact Hp]].
Defined.

Lemma retry_scan_sample :
  uploadsIn (trace (reuploadFailedFiles sample.flags 0 (sample.withTable sample.table)))
    ≡ₚ ["B"; "C"] ∧
  db (reuploadFailedFiles sample.flags 0 (sample.withTable sample.table)) !! "A"
    = Some models.FileSuccess.
Proof. split; [|by vm_compute]. vm_compute. apply perm_swap. Qed.

(** ** The loop of the outcome reporter *)

Lemma handleUploaderEvents_blocked inbox s :
  ∃ s', reporter.handleUploaderEvents inbox s = Blocked s'.
Proof.
  revert s. induction inbox as [|m inbox IH]; intros s; simpl; [eauto|].
  destruct m; simpl; apply IH.
Qed.

(** The loop of the watcher does return on the stop signal. *)
Lemma handleFileSystemEvents_returns flags os zeroStatus t rest st :
  handleFileSystemEvents flags os zeroStatus ((t, RecvExiting) :: rest) st
  = Returned (emit t AckExiting (advance flags os t st)) rest.
Proof. reflexivity. Qed.

(** C7: after the stop signal the reporter's loop sends its acknowledgement
    and stays in the loop: on no input does it return, and a completed
    upload that arrives after the stop signal is consumed and counted. *)
Theorem reporter_loop_survives_stop :
  (∀ inbox s, ∃ s', reporter.handleUploaderEvents inbox s = Blocked s') ∧
  reporter.handleUploaderEvents [reporter.Exiting; reporter.Completed "a.jpg"] reporter.zero
  = Blocked {| reporter.uploadedFilesCount := 1; reporter.ignoredCount := 0;
               reporter.errorsCount := 0; reporter.acks := 1;
               reporter.log := [reporter.LogCompleted "a.jpg"] |}.
Proof. split; [apply handleUploaderEvents_blocked | reflexivity]. Qed.

(** ** The timer function *)

Section TimerFire.

Variable flags : Flags.
Variable os : Z → FileSystem.


Lemma quiet_uploadsOf path tr : quiet tr → uploadsOf path tr = [].
Proof.
  induction 1 as [|[t e] tr He _ IH]; [done|].
  unfold uploadsOf in *. rewrite filter_cons_False; [done|].
  simpl. apply He.
Qed.

Lemma quiet_app tr1 tr2 : quiet tr1 → quiet tr2 → quiet (tr1 ++ tr2).
Proof. apply Forall_app_2. Qed.

Lemma uploadsOf_app path tr1 tr2 :
  uploadsOf path (tr1 ++ tr2) = uploadsOf path tr1 ++ uploadsOf path tr2.
Proof. unfold uploadsOf. by rewrite filter_app, fmap_app. Qed.

Lemma uploadsIn_app tr1 tr2 : uploadsIn (tr1 ++ tr2) = uploadsIn tr1 ++ uploadsIn tr2.
Proof. apply omap_app. Qed.

Lemma watchesIn_app tr1 tr2 : watchesIn (tr1 ++ tr2) = watchesIn tr1 ++ watchesIn tr2.
Proof. apply omap_app. Qed.

(** What one call of the walk callback appends. *)
Lemma watchWalkFn_added now path file st :
  ∃ added,
    trace (watchWalkFn flags os now path file st).2 = trace st ++ added ∧
    timers (watchWalkFn flags os now path file st).2 = timers st ∧
    db (watchWalkFn flags os now path file st).2 = db st ∧
    quiet added ∧
    (watchable flags (path, file) →
       if AddErr (os now) path
       then watchesIn added = [] ∧ (watchWalkFn flags os now path file st).1 = true
       else watchesIn added = [path] ∧ (watchWalkFn flags os now path file st).1 = false) ∧
    (¬ watchable flags (path, file) →
       watchesIn added = [] ∧ (watchWalkFn flags os now path file st).1 = false).
Proof.
  unfold watchWalkFn, watchable, checkIgnore, fsWatcher_Add. simpl.
  destruct (IsDir file); simpl.
  - destruct (matchAny _ path); simpl.
    + exists [(now, LogIgnored path)].
      split_and!; try done; [by repeat constructor | by intros [_ ?]].
    + destruct (AddErr (os now) path); simpl.
      * exists []. rewrite app_nil_r.
        split_and!; try done; [constructor | intros H; by destruct H].
      * exists [(now, WatcherAdd path)].
        split_and!; try done; [by repeat constructor | intros H; by destruct H].
  - exists []. rewrite app_nil_r.
    split_and!; try done; [constructor | by intros [? _]].
Qed.

(** The walk adds watchable entries in the order of the walk, up to the
    first one the watcher refuses. *)
Lemma walkEntries_added now entries st :
  ∃ added,
    trace (walkEntries flags os now entries st).2 = trace st ++ added ∧
    timers (walkEntries flags os now entries st).2 = timers st ∧
    db (walkEntries flags os now entries st).2 = db st ∧
    quiet added ∧
    watchesIn added `prefix_of` (filter (watchable flags) entries).*1 ∧
    ((∀ q, AddErr (os now) q = false) →
       watchesIn added = (filter (watchable flags) entries).*1) ∧
    (∀ e rest, entries = e :: rest → watchable flags e → AddErr (os now) e.1 = false →
       e.1 ∈ watchesIn added).
Proof.
  revert st. induction entries as [|[path file] entries IH]; intros st; simpl.
  - exists []. rewrite app_nil_r. split_and!; try done; try constructor; apply prefix_nil.
  - destruct (watchWalkFn_added now path file st)
      as (a1 & Htr1 & Ht1 & Hd1 & Hq1 & Hyes & Hno).
    destruct (watchWalkFn flags os now path file st) as [err st1] eqn:Hfn.
    simpl in *.
    destruct (decide (watchable flags (path, file))) as [Hw|Hw].
    + rewrite filter_cons_True by done. specialize (Hyes Hw).
      destruct (AddErr (os now) path) eqn:Herr; destruct Hyes as [Hwa ->].
      * exists a1. split_and!; try done.
        -- rewrite Hwa. apply prefix_nil.
        -- intros Hall. by rewrite Hall in Herr.
        -- intros e rest [= <- <-] _ Hok. simpl in Hok. congruence.
      * destruct (IH st1) as (a2 & Htr2 & Ht2 & Hd2 & Hq2 & Hpre & Hall & _).
        exists (a1 ++ a2). rewrite Htr2, Ht2, Hd2, Htr1, Ht1, Hd1, app_assoc.
        split_and!; try done.
        -- by apply quiet_app.
        -- rewrite watchesIn_app, Hwa. simpl. by apply prefix_cons.
        -- intros H. rewrite watchesIn_app, Hwa, (Hall H). done.
        -- intros e rest [= <- <-] _ _. rewrite watchesIn_app, Hwa. simpl. left.
    + rewrite filter_cons_False by done. destruct (Hno Hw) as [Hwa ->].
      destruct (IH st1) as (a2 & Htr2 & Ht2 & Hd2 & Hq2 & Hpre & Hall & _).
      exists (a1 ++ a2). rewrite Htr2, Ht2, Hd2, Htr1, Ht1, Hd1, app_assoc.
      split_and!; try done.
      * by apply quiet_app.
      * by rewrite watchesIn_app, Hwa.
      * intros H. by rewrite watchesIn_app, Hwa, (Hall H).
      * by intros e rest [= <- <-] ?.
Qed.

(** The same, exactly: the watchable entries are added in the order of the
    walk up to, and without, the first one the watcher refuses, and the
    walk reports an error exactly when there is one. *)
Lemma walkEntries_refusal now entries : ∀ st,
  ∃ accepted rest,
    (filter (watchable flags) entries).*1 = accepted ++ rest ∧
    watchesIn (since st (walkEntries flags os now entries st).2) = accepted ∧
    Forall (λ q, AddErr (os now) q = false) accepted ∧
    match rest with
    | [] => (walkEntries flags os now entries st).1 = false
    | q :: _ => AddErr (os now) q = true ∧ (walkEntries flags os now entries st).1 = true
    end.
Proof.
  induction entries as [|[path file] entries IH]; intros st.
  - exists [], []. simpl. split_and!; try done. by rewrite since_same.
  - simpl.
    destruct (watchWalkFn_added now path file st)
      as (a1 & Htr1 & _ & _ & _ & Hyes & Hno).
    destruct (watchWalkFn flags os now path file st) as [err st1] eqn:Hfn. simpl in *.
    destruct (decide (watchable flags (path, file))) as [Hw|Hw].
    + rewrite filter_cons_True by done. specialize (Hyes Hw).
      destruct (AddErr (os now) path) eqn:Herr; destruct Hyes as [Hwa ->].
      * exists [], (path :: (filter (watchable flags) entries).*1). simpl.
        split_and!; try done. by rewrite (since_app _ _ _ Htr1).
      * destruct (IH st1) as (acc & rest & Hsplit & Hwatch & Hok & Hrest).
        destruct (walkEntries_added now entries st1) as (a2 & Htr2 & _).
        exists (path :: acc), rest. rewrite fmap_cons, Hsplit. split_and!; try done.
        -- rewrite (since_app _ _ (a1 ++ a2)) by (by rewrite Htr2, Htr1, app_assoc).
           rewrite watchesIn_app, Hwa. simpl. f_equal.
           by rewrite <- Hwatch, (since_app _ _ _ Htr2).
        -- by constructor.
    + rewrite filter_cons_False by done. destruct (Hno Hw) as [Hwa ->].
      destruct (IH st1) as (acc & rest & Hsplit & Hwatch & Hok & Hrest).
      destruct (walkEntries_added now entries st1) as (a2 & Htr2 & _).
      exists acc, rest. split_and!; try done.
      rewrite (since_app _ _ (a1 ++ a2)) by (by rewrite Htr2, Htr1, app_assoc).
      rewrite watchesIn_app, Hwa. simpl.
      by rewrite <- Hwatch, (since_app _ _ _ Htr2).
Qed.

(** What the timer function appends, case by case. *)
Lemma timerFunc_added now p st :
  ∃ added,
    trace (timerFunc flags os now p st) = trace st ++ added ∧
    timers (timerFunc flags os now p st) = timers st ∧
    db (timerFunc flags os now p st) = db st ∧
    if uploadable flags (os now) p
    then added = [(now, LogConsuming p); (now, EnqueueUpload p)]
    else
      quiet added ∧
      match Stat (os now) p with
      | None => watchesIn added = []
      | Some info =>
          if watchRecursively flags then
            watchesIn added `prefix_of` (filter (watchable flags) (Walk (os now) p)).*1 ∧
            ((∀ q, AddErr (os now) q = false) →
               watchesIn added = (filter (watchable flags) (Walk (os now) p)).*1) ∧
            (∀ e rest, Walk (os now) p = e :: rest → watchable flags e →
               AddErr (os now) e.1 = false → e.1 ∈ watchesIn added)
          else watchesIn added = []
      end.
Proof.
  unfold timerFunc, uploadable.
  destruct (Stat (os now) p) as [info|]; simpl.
  2: { exists [(now, LogConsuming p); (now, LogStatError p)].
       rewrite <- app_assoc. split_and!; try done. by repeat constructor. }
  assert (Hwalk : ∀ pre st0,
    trace st0 = trace st ++ pre → timers st0 = timers st → db st0 = db st →
    quiet pre → watchesIn pre = [] →
    ∃ added,
      trace (if watchRecursively flags then (startToWatch flags os now p st0).2 else st0)
        = trace st ++ added ∧
      timers (if watchRecursively flags then (startToWatch flags os now p st0).2 else st0)
        = timers st ∧
      db (if watchRecursively flags then (startToWatch flags os now p st0).2 else st0)
        = db st ∧
      quiet added ∧
      if watchRecursively flags then
        watchesIn added `prefix_of` (filter (watchable flags) (Walk (os now) p)).*1 ∧
        ((∀ q, AddErr (os now) q = false) →
           watchesIn added = (filter (watchable flags) (Walk (os now) p)).*1) ∧
        (∀ e rest, Walk (os now) p = e :: rest → watchable flags e →
           AddErr (os now) e.1 = false → e.1 ∈ watchesIn added)
      else watchesIn added = []).
  { intros pre st0 Htr Ht Hd Hq Hw. unfold startToWatch.
    destruct (watchRecursively flags).
    - destruct (walkEntries_added now (Walk (os now) p) st0)
        as (a & Htr' & Ht' & Hd' & Hq' & Hpre & Hall & Hhd).
      exists (pre ++ a). rewrite Htr', Ht', Hd', Htr, app_assoc.
      split_and!; try done.
      + by apply quiet_app.
      + by rewrite watchesIn_app, Hw.
      + intros H. by rewrite watchesIn_app, Hw, (Hall H).
      + intros e rest He Hwe Hok. rewrite watchesIn_app, Hw. simpl. eauto.
    - exists pre. by split_and!. }
  destruct (IsDir info); simpl.
  - apply (Hwalk [(now, LogConsuming p)]); try done. by repeat constructor.
  - unfold checkIgnore. destruct (matchAny _ p); simpl.
    + apply (Hwalk [(now, LogConsuming p); (now, LogIgnored p)]); try done.
      * simpl. by rewrite <- app_assoc.
      * by repeat constructor.
    + exists [(now, LogConsuming p); (now, EnqueueUpload p)].
      rewrite <- app_assoc. by split_and!.
Qed.




Lemma timerFunc_uploadsOf q now p st :
  uploadsOf q (trace (timerFunc flags os now p st))
  = uploadsOf q (trace st)
    ++ (if decide (q = p) then if uploadable flags (os now) p then [now] else [] else []).
Proof.
  destruct (timerFunc_added now p st) as (added & -> & _ & _ & H).
  rewrite uploadsOf_app. f_equal.
  destruct (uploadable flags (os now) p).
  - subst added. unfold uploadsOf.
    rewrite filter_cons_False by done.
    destruct (decide (q = p)) as [->|Hne].
    + by rewrite filter_cons_True.
    + rewrite filter_cons_False; [done|]. simpl. congruence.
  - destruct H as [Hq _]. rewrite (quiet_uploadsOf _ _ Hq). by destruct (decide _).
Qed.



End TimerFire.



(** ** The worker pool *)

Section Pool.

Import models.

Variable w : pool.World.

Lemma process_success path s :
  pool.store s !! path = Some FileSuccess →
  pool.process w path s = pool.report (pool.ignored path) s.
Proof.
  intros Hs. unfold pool.process. destruct (pool.excluded w path); [done|].
  by rewrite bool_decide_eq_true_2.
Qed.

Lemma processAll_success path s n :
  pool.store s !! path = Some FileSuccess →
  pool.store (pool.processAll w (replicate n path) s) = pool.store s ∧
  pool.writes (pool.processAll w (replicate n path) s) = pool.writes s ∧
  pool.invoked (pool.processAll w (replicate n path) s) = pool.invoked s ∧
  pool.outcomes (pool.processAll w (replicate n path) s)
    = pool.outcomes s ++ replicate n (pool.ignored path).
Proof.
  revert s. induction n as [|n IH]; intros s Hs; simpl.
  - by rewrite app_nil_r.
  - unfold pool.processAll in *. simpl. rewrite (process_success _ _ Hs).
    destruct (IH (pool.report (pool.ignored path) s) Hs) as (-> & -> & -> & ->).
    simpl. by rewrite <- app_assoc.
Qed.

Lemma statusWrites_upsertPending path s :
  pool.statusWrites path (pool.upsertPending path s) = pool.statusWrites path s.
Proof.
  unfold pool.upsertPending, pool.statusWrites.
  destruct (pool.store s !! path); [done|]. simpl.
  rewrite filter_app, filter_cons_False, filter_nil, app_nil_r; [done|]. simpl. tauto.
Qed.

Lemma process_uploaded path s :
  pool.excluded w path = false →
  pool.store s !! path ≠ Some FileSuccess →
  pool.Upload w (length (pool.invoked s)) path = pool.Uploaded →
  pool.store (pool.process w path s) !! path = Some FileSuccess ∧
  pool.statusWrites path (pool.process w path s)
    = pool.statusWrites path s ++ [pool.StatusSet path FileSuccess] ∧
  pool.invoked (pool.process w path s) = pool.invoked s ++ [path] ∧
  pool.outcomes (pool.process w path s) = pool.outcomes s ++ [pool.completed path].
Proof.
  intros Hex Hs Hup. unfold pool.process. rewrite Hex.
  rewrite bool_decide_eq_false_2 by done. cbv zeta.
  assert (Hinv : pool.invoked (pool.upsertPending path s) = pool.invoked s).
  { unfold pool.upsertPending. by destruct (pool.store s !! path). }
  assert (Hout : pool.outcomes (pool.upsertPending path s) = pool.outcomes s).
  { unfold pool.upsertPending. by destruct (pool.store s !! path). }
  rewrite Hinv, Hup. simpl. rewrite Hinv, Hout, lookup_insert_eq.
  split_and!; try done.
  pose proof (statusWrites_upsertPending path s) as Hw.
  unfold pool.statusWrites in *. simpl.
  rewrite filter_app, Hw, filter_cons_True, filter_nil; done.
Qed.

(** C4: a path whose record says Success is reported as ignored and the
    processing stops there: the store, the list of store writes and the
    list of upload invocations are as before.  So when a path is enqueued
    1 + n times, and the first upload succeeds, its status is written and
    the Upload Operation is invoked once in total, and the n later
    enqueues yield n ignored outcomes. *)
Theorem success_is_uploaded_once path :
  (∀ s, pool.store s !! path = Some FileSuccess →
        pool.process w path s = pool.report (pool.ignored path) s) ∧
  (∀ s n,
     pool.excluded w path = false →
     pool.store s !! path ≠ Some FileSuccess →
     pool.Upload w (length (pool.invoked s)) path = pool.Uploaded →
     pool.statusWrites path (pool.processAll w (replicate (S n) path) s)
       = pool.statusWrites path s ++ [pool.StatusSet path FileSuccess] ∧
     pool.invoked (pool.processAll w (replicate (S n) path) s) = pool.invoked s ++ [path] ∧
     pool.outcomes (pool.processAll w (replicate (S n) path) s)
       = pool.outcomes s ++ pool.completed path :: replicate n (pool.ignored path)).
Proof.
  split; [apply process_success|].
  intros s n Hex Hs Hup.
  destruct (process_uploaded path s Hex Hs Hup) as (Hst & Hw & Hi & Ho).
  change (pool.processAll w (replicate (S n) path) s)
    with (pool.processAll w (replicate n path) (pool.process w path s)).
  destruct (processAll_success path (pool.process w path s) n Hst) as (_ & Hw' & Hi' & Ho').
  unfold pool.statusWrites in *. rewrite Hw', Hi', Ho', Hw, Hi, Ho.
  split_and!; try done. by rewrite <- app_assoc.
Qed.

End Pool.

(** The photo enqueued twice into an empty pipeline whose uploads succeed. *)
Lemma success_is_uploaded_once_witness :
  pool.statusWrites sample.photo
    (pool.processAll sample.world [sample.photo; sample.photo] pool.fresh)
    = [pool.StatusSet sample.photo models.FileSuccess] ∧
  pool.invoked (pool.processAll sample.world [sample.photo; sample.photo] pool.fresh)
    = [sample.photo] ∧
  pool.outcomes (pool.processAll sample.world [sample.photo; sample.photo] pool.fresh)
    = [pool.completed sample.photo; pool.ignored sample.photo].
Proof.
  pose proof (success_is_uploaded_once sample.world sample.photo) as [_ H].
  apply (H pool.fresh 1%nat); [reflexivity | by vm_compute | reflexivity].
Defined.

(** ** The bound on uploads in flight *)

Lemma uploading_dispatch (ws : list (option string)) i path :
  ws !! i = Some None →
  length (omap id (<[i := Some path]> ws)) = S (length (omap id ws)).
Proof.
  revert i. induction ws as [|[x|] ws IH]; intros [|i] H; simpl in *; try done.
  - f_equal. by apply IH.
  - by apply IH.
Qed.

Lemma uploading_busy (ws : list (option string)) i path :
  ws !! i = Some (Some path) → (0 < length (omap id ws))%nat.
Proof.
  revert i. induction ws as [|[x|] ws IH]; intros [|i] H; cbn in *; try done; try lia.
  by apply (IH i).
Qed.

Lemma uploading_complete (ws : list (option string)) i path :
  ws !! i = Some (Some path) →
  length (omap id (<[i := None]> ws)) = Nat.pred (length (omap id ws)).
Proof.
  revert i. induction ws as [|[x|] ws IH]; intros [|i] H; try done.
  - change (S (length (omap id (<[i := None]> ws))) = Nat.pred (S (length (omap id ws)))).
    rewrite (IH i H). pose proof (uploading_busy ws i path H). lia.
  - by apply (IH i).
Qed.

Lemma uploading_le (ws : list (option string)) : (length (omap id ws) ≤ length ws)%nat.
Proof.
  induction ws as [|[x|] ws IH]; [done | |].
  - change (S (length (omap id ws)) ≤ S (length ws))%nat. lia.
  - change (length (omap id ws) ≤ S (length ws))%nat. lia.
Qed.

Lemma act_invariant a p p' :
  pool.act a p = Some p' →
  pool.inFlight p = length (pool.uploading p) →
  length (pool.workers p') = length (pool.workers p) ∧
  pool.inFlight p' = length (pool.uploading p').
Proof.
  unfold pool.uploading. intros Hact Hinv. destruct a as [path| |i|i]; simpl in Hact.
  - by inversion Hact.
  - destruct (pool.queue p); inversion Hact. done.
  - destruct (pool.workers p !! i) as [[x|]|] eqn:Hw; try done.
    destruct (pool.ready p) as [|path rest]; inversion Hact; simpl.
    by rewrite length_insert, (uploading_dispatch _ _ _ Hw), Hinv.
  - destruct (pool.workers p !! i) as [[x|]|] eqn:Hw; inversion Hact; simpl.
    by rewrite length_insert, (uploading_complete _ _ _ Hw), Hinv.
Qed.

(** C5: however the moves of a pool made for [n] tasks follow one another,
    the in-flight counter equals the number of uploads inside step 4, and
    neither exceeds [n]. *)
Theorem in_flight_bounded n actions p :
  pool.execute actions (pool.NewPool n) = Some p →
  pool.inFlight p = length (pool.uploading p) ∧ (pool.inFlight p ≤ n)%nat.
Proof.
  assert (Hgen : ∀ actions p0,
    pool.inFlight p0 = length (pool.uploading p0) →
    pool.execute actions p0 = Some p →
    pool.inFlight p = length (pool.uploading p) ∧
    length (pool.workers p) = length (pool.workers p0)).
  { clear actions. induction actions as [|a actions IH]; intros p0 Hinv Hex; simpl in Hex.
    - by inversion Hex; subst.
    - destruct (pool.act a p0) as [p1|] eqn:Hact; [|done].
      destruct (act_invariant _ _ _ Hact Hinv) as [Hlen Hinv1].
      destruct (IH p1 Hinv1 Hex) as [? ?]. split; [done | congruence]. }
  intros Hex. destruct (Hgen actions (pool.NewPool n)) as [Hinv Hlen]; [| done |].
  { unfold pool.uploading. simpl. clear. induction n as [|n IH]; [done | exact IH]. }
  split; [done|]. rewrite Hinv. unfold pool.uploading.
  etrans; [apply uploading_le|]. rewrite Hlen. simpl. by rewrite length_replicate.
Qed.

(** Two tasks, three paths: the third waits until a task is free. *)
Lemma in_flight_bounded_witness :
  ∃ p,
    pool.execute [pool.Enqueue "a"; pool.Enqueue "b"; pool.Enqueue "c";
                  pool.Prepare; pool.Prepare; pool.Prepare;
                  pool.Dispatch 0; pool.Dispatch 1; pool.Complete 0; pool.Dispatch 0]
      (pool.NewPool 2) = Some p ∧
    pool.inFlight p = 2%nat ∧ (pool.inFlight p ≤ 2)%nat.
Proof.
  eexists. split; [reflexivity|]. split; [reflexivity|].
  eapply (in_flight_bounded 2
            [pool.Enqueue "a"; pool.Enqueue "b"; pool.Enqueue "c";
             pool.Prepare; pool.Prepare; pool.Prepare;
             pool.Dispatch 0; pool.Dispatch 1; pool.Complete 0; pool.Dispatch 0]).
  reflexivity.
Defined.

(** With both tasks busy a third dispatch is not a move of the pool. *)
Lemma third_dispatch_refused :
  pool.execute [pool.Enqueue "a"; pool.Enqueue "b"; pool.Enqueue "c";
                pool.Prepare; pool.Prepare; pool.Prepare;
                pool.Dispatch 0; pool.Dispatch 1; pool.Dispatch 2]
    (pool.NewPool 2) = None.
Proof. reflexivity. Qed.

(** ** Timers and the clock *)

Section Clock.

Variable flags : Flags.
Variable os : Z → FileSystem.
Variable zeroStatus : models.FileStatus.

Lemma fire_timers st kt :
  timers (fire flags os st kt) = <[kt.1 := spent kt.2]> (timers st).
Proof.
  unfold fire. destruct (timerFunc_added flags os (when kt.2) kt.1
    (set_timers (insert kt.1 {| when := when kt.2; pending := false |}) st))
    as (_ & _ & -> & _). reflexivity.
Qed.

Lemma fire_uploadsOf q st kt :
  uploadsOf q (trace (fire flags os st kt))
  = uploadsOf q (trace st) ++ (if decide (q = kt.1) then settled flags os kt.1 kt.2 else []).
Proof. unfold fire. by rewrite timerFunc_uploadsOf. Qed.

Lemma foldl_fire_other p l st :
  p ∉ l.*1 →
  timers (foldl (fire flags os) st l) !! p = timers st !! p ∧
  uploadsOf p (trace (foldl (fire flags os) st l)) = uploadsOf p (trace st).
Proof.
  revert st. induction l as [|kt l IH]; intros st Hp; [done|].
  apply not_elem_of_cons in Hp as [Hne Hp]. simpl in Hne |- *.
  destruct (IH (fire flags os st kt) Hp) as [-> ->].
  rewrite fire_timers, fire_uploadsOf, lookup_insert_ne by done.
  rewrite decide_False by done. by rewrite app_nil_r.
Qed.

Lemma foldl_fire_at p timer l st :
  NoDup l.*1 → (p, timer) ∈ l →
  timers (foldl (fire flags os) st l) !! p = Some (spent timer) ∧
  uploadsOf p (trace (foldl (fire flags os) st l)) = uploadsOf p (trace st) ++ settled flags os p timer.
Proof.
  revert st. induction l as [|kt l IH]; intros st Hnd Hin; [by apply elem_of_nil in Hin|].
  apply NoDup_cons in Hnd as [Hk Hnd]. apply elem_of_cons in Hin as [<-|Hin]; simpl.
  - destruct (foldl_fire_other p l (fire flags os st (p, timer)) Hk) as [-> ->].
    rewrite fire_timers, fire_uploadsOf, lookup_insert_eq. simpl.
    by rewrite decide_True.
  - assert (p ≠ kt.1).
    { intros ->. apply Hk. apply list_elem_of_fmap. by exists (kt.1, timer). }
    destruct (IH (fire flags os st kt) Hnd Hin) as [-> ->].
    rewrite fire_uploadsOf, decide_False by done. by rewrite app_nil_r.
Qed.

Lemma elem_of_dueTimers t st p timer :
  (p, timer) ∈ dueTimers t st ↔ timers st !! p = Some timer ∧ isDue t (p, timer).
Proof.
  unfold dueTimers. rewrite merge_sort_Permutation, list_elem_of_filter, elem_of_map_to_list.
  tauto.
Qed.

Lemma NoDup_dueTimers t st : NoDup (dueTimers t st).*1.
Proof.
  unfold dueTimers. rewrite merge_sort_Permutation.
  eapply sublist_NoDup; [apply (NoDup_fst_map_to_list (timers st))|].
  apply fmap_sublist, sublist_filter.
Qed.

(** The clock reaching [t], seen from one path: its timer, when it waits
    and is due, is run, and what it enqueues is stamped with the instant
    it was set for. *)
Lemma advance_at t st p :
  match timers st !! p with
  | Some timer =>
      if decide (isDue t (p, timer))
      then timers (advance flags os t st) !! p = Some (spent timer) ∧
           uploadsOf p (trace (advance flags os t st))
             = uploadsOf p (trace st) ++ settled flags os p timer
      else timers (advance flags os t st) !! p = Some timer ∧
           uploadsOf p (trace (advance flags os t st)) = uploadsOf p (trace st)
  | None =>
      timers (advance flags os t st) !! p = None ∧
      uploadsOf p (trace (advance flags os t st)) = uploadsOf p (trace st)
  end.
Proof.
  unfold advance.
  destruct (timers st !! p) as [timer|] eqn:Hp.
  - destruct (decide (isDue t (p, timer))) as [Hdue|Hdue].
    + apply foldl_fire_at; [apply NoDup_dueTimers | by apply elem_of_dueTimers].
    + rewrite <- Hp. apply foldl_fire_other.
      intros Hin. apply list_elem_of_fmap in Hin as ([k tm] & -> & Hin).
      apply elem_of_dueTimers in Hin as [Hl Hd]. simpl in *. congruence.
  - rewrite <- Hp. apply foldl_fire_other.
    intros Hin. apply list_elem_of_fmap in Hin as ([k tm] & -> & Hin).
    apply elem_of_dueTimers in Hin as [Hl Hd]. simpl in *. congruence.
Qed.


(** *** One notification *)

Lemma guard_negb op :
  negb (op =? fsnotify.Remove)%N && negb (op =? fsnotify.Rename)%N
  = negb (isRemoveOrRename op).
Proof. unfold isRemoveOrRename. by rewrite negb_orb. Qed.

(** [handleFileChange] enqueues nothing itself. *)
Lemma handleFileChange_added now event st :
  ∃ added,
    trace (handleFileChange flags zeroStatus now event st) = trace st ++ added ∧
    quiet added.
Proof.
  unfold handleFileChange. cbv zeta.
  destruct (timers st !! fsnotify.Name event) as [timer|].
  - exists []. rewrite app_nil_r. split; [|constructor].
    simpl. by destruct (_ && _).
  - rewrite guard_negb. destruct (isRemoveOrRename _) eqn:Hop; simpl.
    2: { exists []. rewrite app_nil_r. split; [done | constructor]. }
    unfold isRemoveOrRename in Hop. rewrite orb_comm in Hop. rewrite Hop.
    unfold checkIgnore. destruct (matchAny _ _); simpl.
    + exists [(now, LogIgnored (fsnotify.Name event))]. split; [done | by repeat constructor].
    + unfold FirstOrCreate. destruct (db st !! fsnotify.Name event); simpl.
      * eexists. rewrite <- app_assoc. split; [done | by repeat constructor].
      * eexists. rewrite <- !app_assoc. split; [done | by repeat constructor].
Qed.

Lemma handleFileChange_uploadsOf q now event st :
  uploadsOf q (trace (handleFileChange flags zeroStatus now event st)) = uploadsOf q (trace st).
Proof.
  destruct (handleFileChange_added now event st) as (added & -> & Hq).
  by rewrite uploadsOf_app, (quiet_uploadsOf _ _ Hq), app_nil_r.
Qed.

(** It touches no timer but the one of the event's name. *)
Lemma handleFileChange_other p now event st :
  fsnotify.Name event ≠ p →
  timers (handleFileChange flags zeroStatus now event st) !! p = timers st !! p.
Proof.
  intros Hne. unfold handleFileChange. cbv zeta.
  destruct (timers st !! fsnotify.Name event) as [timer|].
  - simpl. destruct (_ && _); simpl; by rewrite lookup_insert_ne.
  - rewrite guard_negb. destruct (isRemoveOrRename _) eqn:Hop; simpl.
    2: { by rewrite lookup_insert_ne. }
    unfold isRemoveOrRename in Hop. rewrite orb_comm in Hop. rewrite Hop.
    unfold checkIgnore. destruct (matchAny _ _); simpl; [done|].
    unfold FirstOrCreate. by destruct (db st !! fsnotify.Name event).
Qed.

(** No timer stored: a notification that is no removal arms one. *)
Lemma handleFileChange_arm now event st :
  timers st !! fsnotify.Name event = None →
  isRemoveOrRename (fsnotify.Op_ event) = false →
  timers (handleFileChange flags zeroStatus now event st) !! fsnotify.Name event
  = Some (AfterFunc now (eventDelay flags)).
Proof.
  intros Ht Hop. unfold handleFileChange. cbv zeta.
  rewrite Ht, guard_negb, Hop. simpl. apply lookup_insert_eq.
Qed.

(** A waiting timer stored: such a notification sets it anew. *)
Lemma handleFileChange_rearm now event st timer :
  timers st !! fsnotify.Name event = Some timer →
  pending timer = true →
  isRemoveOrRename (fsnotify.Op_ event) = false →
  timers (handleFileChange flags zeroStatus now event st) !! fsnotify.Name event
  = Some (AfterFunc now (eventDelay flags)).
Proof.
  intros Ht Hp Hop. unfold handleFileChange. cbv zeta.
  rewrite Ht. simpl. rewrite Hp. simpl. rewrite guard_negb, Hop. simpl.
  apply lookup_insert_eq.
Qed.

(** A timer stored that has run or was stopped: [Stop] reports false, and
    whatever the notification, the timer stays as it is. *)
Lemma handleFileChange_spent now event st timer :
  timers st !! fsnotify.Name event = Some timer →
  pending timer = false →
  timers (handleFileChange flags zeroStatus now event st) !! fsnotify.Name event
  = Some (spent timer).
Proof.
  intros Ht Hp. unfold handleFileChange. cbv zeta.
  rewrite Ht. simpl. rewrite Hp. simpl. apply lookup_insert_eq.
Qed.

Lemma run_cons t event rest st :
  run flags os zeroStatus ((t, event) :: rest) st
  = run flags os zeroStatus rest
      (handleFileChange flags zeroStatus t event (advance flags os t st)).
Proof. reflexivity. Qed.

(** *** A spent timer stays spent *)

Lemma spent_timer_run p events : ∀ st timer,
  timers st !! p = Some timer →
  pending timer = false →
  timers (run flags os zeroStatus events st) !! p = Some (spent timer) ∧
  uploadsOf p (trace (run flags os zeroStatus events st)) = uploadsOf p (trace st).
Proof.
  induction events as [|[t event] rest IH]; intros st timer Ht Hp.
  - change (run flags os zeroStatus [] st) with st.
    split; [|done]. rewrite Ht. destruct timer; simpl in *; by subst.
  - rewrite run_cons.
    pose proof (advance_at t st p) as Hadv. rewrite Ht in Hadv.
    rewrite decide_False in Hadv by (intros [? _]; simpl in *; congruence).
    destruct Hadv as [Ht1 Hu1].
    destruct (decide (fsnotify.Name event = p)) as [<-|Hne].
    + pose proof (handleFileChange_spent t event _ _ Ht1 Hp) as Ht2.
      destruct (IH _ _ Ht2 eq_refl) as [-> ->].
      by rewrite handleFileChange_uploadsOf, Hu1.
    + pose proof (handleFileChange_other p t event (advance flags os t st) Hne) as Ht2.
      rewrite Ht1 in Ht2. destruct (IH _ _ Ht2 Hp) as [-> ->].
      by rewrite handleFileChange_uploadsOf, Hu1.
Qed.

(** Once the timer of a path has run or was stopped, no notification for
    the path, of whatever kind and at whatever instant, leads to an upload
    of it. *)
Lemma spent_timer_never_uploads p events stop st timer :
  timers st !! p = Some timer →
  pending timer = false →
  uploadsOf p (trace (runUntil flags os zeroStatus events stop st)) = uploadsOf p (trace st).
Proof.
  intros Ht Hp. unfold runUntil.
  destruct (spent_timer_run p events st timer Ht Hp) as [Ht' Hu'].
  pose proof (advance_at stop (run flags os zeroStatus events st) p) as Hadv.
  rewrite Ht' in Hadv. rewrite decide_False in Hadv by (intros [? _]; simpl in *; congruence).
  destruct Hadv as [_ ->]. exact Hu'.
Qed.


(** *** The trace only grows *)

Lemma extends_refl st : extends st st.
Proof. exists []. by rewrite app_nil_r. Qed.

Lemma extends_trans st1 st2 st3 : extends st1 st2 → extends st2 st3 → extends st1 st3.
Proof. intros [a Ha] [b Hb]. exists (a ++ b). by rewrite Hb, Ha, app_assoc. Qed.

Lemma advance_extends t st : extends st (advance flags os t st).
Proof.
  unfold advance. generalize (dueTimers t st). intros l. revert st.
  induction l as [|kt l IH]; intros st; [apply extends_refl|].
  simpl. eapply extends_trans; [|apply IH].
  unfold fire.
  destruct (timerFunc_added flags os (when kt.2) kt.1
    (set_timers (insert kt.1 {| when := when kt.2; pending := false |}) st))
    as (added & Htr & _). by exists added.
Qed.

Lemma run_extends events : ∀ st, extends st (run flags os zeroStatus events st).
Proof.
  induction events as [|[t event] rest IH]; intros st; [apply extends_refl|].
  rewrite run_cons.
  eapply extends_trans; [apply (advance_extends t)|].
  eapply extends_trans; [|apply IH].
  destruct (handleFileChange_added t event (advance flags os t st)) as (added & Htr & _).
  by exists added.
Qed.

Lemma runUntil_extends events stop st :
  extends st (runUntil flags os zeroStatus events stop st).
Proof. eapply extends_trans; [apply run_extends | apply advance_extends]. Qed.

Lemma uploadsOf_since p st st' l :
  extends st st' →
  uploadsOf p (trace st') = uploadsOf p (trace st) ++ l →
  uploadsOf p (since st st') = l.
Proof.
  intros [added Htr] H. rewrite (since_app _ _ _ Htr).
  rewrite Htr, uploadsOf_app in H. by apply app_inv_head in H.
Qed.

(** *** A burst *)

Lemma runtime_when_nonneg now d : 0 ≤ d → runtime_when now d = now + d.
Proof. intros Hd. unfold runtime_when. destruct (Z.leb_spec d 0); lia. Qed.

Lemma eventTimes_cons p t event rest :
  eventTimes p ((t, event) :: rest)
  = if decide (fsnotify.Name event = p) then t :: eventTimes p rest else eventTimes p rest.
Proof.
  unfold eventTimes. rewrite filter_cons. simpl. by destruct (decide _).
Qed.

Lemma eventTimes_ge t p (events : list (Z * fsnotify.Event)) :
  Forall (Z.le t) events.*1 → Forall (Z.le t) (eventTimes p events).
Proof.
  induction events as [|[t' event] rest IH]; intros H; [constructor|].
  apply Forall_cons in H as [Ht H]. rewrite eventTimes_cons.
  destruct (decide _); [constructor|]; auto.
Qed.

(** The timer of [p] waits, set at [t0]; the notifications left for [p]
    each come less than the delay after the one before. *)
Lemma burst_goes_on p events : ∀ st t0 tl stop,
  0 ≤ eventDelay flags →
  timers st !! p = Some (AfterFunc t0 (eventDelay flags)) →
  Forall (Z.le t0) events.*1 →
  StronglySorted Z.le events.*1 →
  Forall (λ te, fsnotify.Name te.2 = p → isRemoveOrRename (fsnotify.Op_ te.2) = false) events →
  gapsBelow (eventDelay flags) (t0 :: eventTimes p events) →
  last (t0 :: eventTimes p events) = Some tl →
  tl + eventDelay flags ≤ stop →
  uploadsOf p (trace (runUntil flags os zeroStatus events stop st))
  = uploadsOf p (trace st)
    ++ (if uploadable flags (os (tl + eventDelay flags)) p then [tl + eventDelay flags] else []).
Proof.
  induction events as [|[t event] rest IH];
    intros st t0 tl stop Hd Ht Hge Hsort Hops Hgaps Hlast Hstop.
  - simpl in Hlast. injection Hlast as <-.
    unfold runUntil. change (run flags os zeroStatus [] st) with st.
    pose proof (advance_at stop st p) as Hadv. rewrite Ht in Hadv.
    rewrite decide_True in Hadv.
    2: { split; [done|]. simpl. rewrite runtime_when_nonneg by done. lia. }
    destruct Hadv as [_ ->]. unfold settled. simpl.
    by rewrite runtime_when_nonneg.
  - unfold runUntil. rewrite run_cons. fold (runUntil flags os zeroStatus rest stop
      (handleFileChange flags zeroStatus t event (advance flags os t st))).
    simpl in Hge, Hsort. apply Forall_cons in Hge as [Ht0 Hge].
    apply StronglySorted_inv in Hsort as [Hsort Hlater].
    apply Forall_cons in Hops as [Hop Hops]. simpl in Hop.
    rewrite eventTimes_cons in Hgaps, Hlast.
    pose proof (advance_at t st p) as Hadv. rewrite Ht in Hadv.
    destruct (decide (fsnotify.Name event = p)) as [Hname|Hname].
    + (* another notification of the burst: the timer still waits and is set anew *)
      destruct Hgaps as [Hgap Hgaps].
      rewrite decide_False in Hadv.
      2: { intros [_ Hdue]. simpl in Hdue. rewrite runtime_when_nonneg in Hdue by done. lia. }
      destruct Hadv as [Ht1 Hu1].
      pose proof (handleFileChange_rearm t event (advance flags os t st) _
                    ltac:(by rewrite Hname) eq_refl (Hop Hname)) as Ht2.
      rewrite Hname in Ht2.
      rewrite (IH _ t tl stop Hd Ht2 Hlater Hsort Hops Hgaps Hlast Hstop).
      by rewrite handleFileChange_uploadsOf, Hu1.
    + (* a notification for another path *)
      destruct (decide (isDue t (p, AfterFunc t0 (eventDelay flags)))) as [Hdue|Hdue].
      * (* the timer of [p] has run by then: the burst is over *)
        destruct Hadv as [Ht1 Hu1].
        assert (Hnone : eventTimes p rest = []).
        { destruct (eventTimes p rest) as [|t1 l] eqn:Htimes; [done|].
          pose proof (eventTimes_ge t p rest Hlater) as Hall. rewrite Htimes in Hall.
          apply Forall_cons in Hall as [Ht1' _]. destruct Hgaps as [Hgap _].
          destruct Hdue as [_ Hdue]. simpl in Hdue.
          rewrite runtime_when_nonneg in Hdue by done. lia. }
        rewrite Hnone in Hlast. simpl in Hlast. injection Hlast as <-.
        pose proof (handleFileChange_other p t event (advance flags os t st) Hname) as Ht2.
        rewrite Ht1 in Ht2.
        rewrite (spent_timer_never_uploads p rest stop _ _ Ht2 eq_refl).
        rewrite handleFileChange_uploadsOf, Hu1. unfold settled. simpl.
        by rewrite runtime_when_nonneg.
      * destruct Hadv as [Ht1 Hu1].
        pose proof (handleFileChange_other p t event (advance flags os t st) Hname) as Ht2.
        rewrite Ht1 in Ht2.
        rewrite (IH _ t0 tl stop Hd Ht2 Hge Hsort Hops Hgaps Hlast Hstop).
        by rewrite handleFileChange_uploadsOf, Hu1.
Qed.

(** No timer is stored for [p] yet: its first notification arms one. *)
Lemma burst_begins p events : ∀ st tl stop,
  0 ≤ eventDelay flags →
  timers st !! p = None →
  StronglySorted Z.le events.*1 →
  Forall (λ te, fsnotify.Name te.2 = p → isRemoveOrRename (fsnotify.Op_ te.2) = false) events →
  gapsBelow (eventDelay flags) (eventTimes p events) →
  last (eventTimes p events) = Some tl →
  tl + eventDelay flags ≤ stop →
  uploadsOf p (trace (runUntil flags os zeroStatus events stop st))
  = uploadsOf p (trace st)
    ++ (if uploadable flags (os (tl + eventDelay flags)) p then [tl + eventDelay flags] else []).
Proof.
  induction events as [|[t event] rest IH];
    intros st tl stop Hd Ht Hsort Hops Hgaps Hlast Hstop; [done|].
  unfold runUntil. rewrite run_cons. fold (runUntil flags os zeroStatus rest stop
    (handleFileChange flags zeroStatus t event (advance flags os t st))).
  simpl in Hsort. apply StronglySorted_inv in Hsort as [Hsort Hlater].
  apply Forall_cons in Hops as [Hop Hops]. simpl in Hop.
  rewrite eventTimes_cons in Hgaps, Hlast.
  pose proof (advance_at t st p) as Hadv. rewrite Ht in Hadv. destruct Hadv as [Ht1 Hu1].
  destruct (decide (fsnotify.Name event = p)) as [Hname|Hname].
  - pose proof (handleFileChange_arm t event (advance flags os t st)
                  ltac:(by rewrite Hname) (Hop Hname)) as Ht2.
    rewrite Hname in Ht2.
    rewrite (burst_goes_on p rest _ t tl stop Hd Ht2 Hlater Hsort Hops Hgaps Hlast Hstop).
    by rewrite handleFileChange_uploadsOf, Hu1.
  - pose proof (handleFileChange_other p t event (advance flags os t st) Hname) as Ht2.
    rewrite Ht1 in Ht2.
    rewrite (IH _ tl stop Hd Ht2 Hsort Hops Hgaps Hlast Hstop).
    by rewrite handleFileChange_uploadsOf, Hu1.
Qed.


(** C2: take a path [p] for which no timer is stored, a delay that is not
    negative, and notifications in the order of their instants among which
    those for [p] are no removals or renames and come each less than the
    delay after the one before; let [tl] be the instant of the last one
    for [p].  Then, when the clock has passed [tl] plus the delay, exactly
    one upload of [p] has been enqueued, at [tl] plus the delay, if at
    that instant [p] exists, is no directory and matches no ignore
    pattern; otherwise none has. *)
Theorem debounce_burst p events st tl stop :
  0 ≤ eventDelay flags →
  timers st !! p = None →
  Sorted Z.le events.*1 →
  Forall (λ te, fsnotify.Name te.2 = p → isRemoveOrRename (fsnotify.Op_ te.2) = false) events →
  gapsBelow (eventDelay flags) (eventTimes p events) →
  last (eventTimes p events) = Some tl →
  tl + eventDelay flags ≤ stop →
  uploadsOf p (since st (runUntil flags os zeroStatus events stop st))
  = if uploadable flags (os (tl + eventDelay flags)) p then [tl + eventDelay flags] else [].
Proof.
  intros Hd Ht Hsort Hops Hgaps Hlast Hstop.
  apply uploadsOf_since; [apply runUntil_extends|].
  apply burst_begins; try done.
  apply Sorted_StronglySorted; [intros x y z; apply Z.le_trans | done].
Qed.

End Clock.

(** Three writes of the photo, one second apart, among writes of another
    photo: one upload, three seconds after the last write. *)
Lemma debounce_burst_witness :
  uploadsOf sample.photo
    (since initial
       (runUntil sample.flags sample.os models.FilePending
          [(0, sample.notify fsnotify.Create sample.photo);
           (1, sample.notify fsnotify.Write sample.photo);
           (1, sample.notify fsnotify.Write sample.other);
           (2, sample.notify fsnotify.Write sample.photo);
           (7, sample.notify fsnotify.Write sample.other)] 100 initial))
  = [5].
Proof.
  apply (debounce_burst sample.flags sample.os models.FilePending sample.photo
           [(0, sample.notify fsnotify.Create sample.photo);
            (1, sample.notify fsnotify.Write sample.photo);
            (1, sample.notify fsnotify.Write sample.other);
            (2, sample.notify fsnotify.Write sample.photo);
            (7, sample.notify fsnotify.Write sample.other)] initial 2 100).
  - vm_compute. discriminate.
  - reflexivity.
  - simpl. repeat constructor; lia.
  - repeat constructor.
  - vm_compute. repeat split.
  - reflexivity.
  - vm_compute. discriminate.
Defined.

(** Two writes of the scratch file, one second apart; it exists, is no
    directory, and matches an ignore pattern.  No upload is enqueued; the
    debounce property of the specification has one at 1 + 3. *)
Lemma ignored_file_burst_uploads_nothing :
  let events := [(0, sample.notify fsnotify.Write sample.scratch);
                 (1, sample.notify fsnotify.Write sample.scratch)] in
  let st := runUntil sample.flags sample.os models.FilePending events 100 initial in
  eventTimes sample.scratch events = [0; 1] ∧
  gapsBelow (eventDelay sample.flags) (eventTimes sample.scratch events) ∧
  uploadsOf sample.scratch (trace st) = [] ∧
  uploadsOf sample.scratch (trace st) ≠ [1 + eventDelay sample.flags].
Proof. vm_compute. split_and!; done. Qed.

(** C6: the photo is written at 0, its timer fires at 3 and the upload is
    enqueued; it is written again at 10.  The timer of the first write is
    still stored under the path, [Stop] on it reports false and it is not
    set again: by 100 there has been no second upload; the specification
    has one at 13. *)
Theorem write_after_settle_is_lost :
  let events := [(0, sample.notify fsnotify.Write sample.photo);
                 (10, sample.notify fsnotify.Write sample.photo)] in
  let settledAt5 :=
    runUntil sample.flags sample.os models.FilePending
      [(0, sample.notify fsnotify.Write sample.photo)] 5 initial in
  let st := runUntil sample.flags sample.os models.FilePending events 100 initial in
  timers settledAt5 !! sample.photo = Some {| when := 3; pending := false |} ∧
  uploadsOf sample.photo (trace settledAt5) = [3] ∧
  timers st !! sample.photo = Some {| when := 3; pending := false |} ∧
  uploadsOf sample.photo (trace st) = [3].
Proof. vm_compute. auto. Qed.

(** * Further properties of the program *)

(** ** [checkIgnore] *)

Lemma matchAny_exists patterns path :
  matchAny patterns path = true ↔
  ∃ pattern, pattern ∈ patterns ∧ MatchString pattern path = true.
Proof.
  induction patterns as [|re rest IH]; simpl.
  - split; [done | intros (re & Hin & _); by apply elem_of_nil in Hin].
  - destruct (MatchString re path) eqn:Hre.
    + split; [|done]. intros _. exists re. split; [left | done].
    + rewrite IH. split.
      * intros (re' & Hin & Hm). exists re'. split; [by right | done].
      * intros (re' & Hin & Hm). apply elem_of_cons in Hin as [->|Hin]; [congruence|].
        by exists re'.
Qed.

(** X1: [checkIgnore] answers true exactly when one of the patterns
    matches the path; it then writes one log line, however many patterns
    match, and otherwise none, and changes nothing else. *)
Theorem checkIgnore_some_pattern flags now path st :
  ((checkIgnore flags now path st).1 = true ↔
   ∃ pattern, pattern ∈ patternsToIgnore flags ∧ MatchString pattern path = true) ∧
  since st (checkIgnore flags now path st).2
    = (if (checkIgnore flags now path st).1 then [(now, LogIgnored path)] else []) ∧
  timers (checkIgnore flags now path st).2 = timers st ∧
  db (checkIgnore flags now path st).2 = db st.
Proof.
  rewrite <- matchAny_exists. unfold checkIgnore.
  destruct (matchAny (patternsToIgnore flags) path); simpl.
  - split_and!; try done. by apply since_app.
  - split_and!; try done. by apply since_same.
Qed.

(** ** [uploadArgumentsFiles] *)

Lemma uploadWalkFn_added flags now path file st :
  ∃ added,
    trace (uploadWalkFn flags now path file st) = trace st ++ added ∧
    timers (uploadWalkFn flags now path file st) = timers st ∧
    db (uploadWalkFn flags now path file st) = db st ∧
    uploadsIn added = (filter (enqueueable flags) [(path, file)]).*1 ∧
    watchesIn added = [].
Proof.
  unfold uploadWalkFn, checkIgnore.
  destruct (IsDir file) eqn:Hdir; simpl.
  - exists []. rewrite app_nil_r, filter_cons_False; [done|].
    intros [H _]. simpl in H. congruence.
  - destruct (matchAny (patternsToIgnore flags) path) eqn:Hm; simpl.
    + exists [(now, LogIgnored path)]. rewrite filter_cons_False; [done|].
      intros [_ H]. simpl in H. congruence.
    + exists [(now, EnqueueUpload path)]. by rewrite filter_cons_True.
Qed.

Lemma hasNil_app visits1 visits2 : hasNil (visits1 ++ visits2) = hasNil visits1 || hasNil visits2.
Proof. apply existsb_app. Qed.

Lemma beforeNil_app visits1 visits2 :
  beforeNil (visits1 ++ visits2)
  = if hasNil visits1 then beforeNil visits1 else beforeNil visits1 ++ beforeNil visits2.
Proof.
  induction visits1 as [|[path [file|]] visits1 IH]; simpl; [done | | done].
  rewrite IH. by destruct (hasNil visits1).
Qed.

Lemma uploadVisits_added flags now visits : ∀ st,
  ∃ added,
    trace (uploadVisits flags now visits st).2 = trace st ++ added ∧
    timers (uploadVisits flags now visits st).2 = timers st ∧
    db (uploadVisits flags now visits st).2 = db st ∧
    uploadsIn added = (filter (enqueueable flags) (beforeNil visits)).*1 ∧
    watchesIn added = [] ∧
    (uploadVisits flags now visits st).1 = hasNil visits.
Proof.
  induction visits as [|[path [file|]] visits IH]; intros st; simpl.
  - exists []. by rewrite app_nil_r.
  - destruct (uploadWalkFn_added flags now path file st) as (a1 & Htr1 & Ht1 & Hd1 & Hu1 & Hw1).
    destruct (IH (uploadWalkFn flags now path file st)) as (a2 & -> & -> & -> & Hu2 & Hw2 & ->).
    exists (a1 ++ a2). rewrite Htr1, Ht1, Hd1, app_assoc, uploadsIn_app, watchesIn_app.
    rewrite Hu1, Hu2, Hw1, Hw2. split_and!; try done.
    change ((path, file) :: beforeNil visits) with ([(path, file)] ++ beforeNil visits).
    by rewrite filter_app, fmap_app.
  - exists []. by rewrite app_nil_r.
Qed.

(** X2: [uploadArgumentsFiles] goes through the calls of the walks, root
    after root, until one comes with a nil [FileInfo], on which it panics;
    it panics in no other case.  Up to there it enqueues, in the order of
    the calls, the entries that are no directories and match no ignore
    pattern, and only those; a file below a directory that matches a
    pattern is enqueued when its own path matches none.  It adds no watch
    and leaves the timers and the store alone. *)
Theorem uploadArgumentsFiles_enqueues flags walk now files st :
  (uploadArgumentsFiles flags walk now files st).1 = hasNil (concat (walk <$> files)) ∧
  uploadsIn (since st (uploadArgumentsFiles flags walk now files st).2)
    = (filter (enqueueable flags) (beforeNil (concat (walk <$> files)))).*1 ∧
  watchesIn (since st (uploadArgumentsFiles flags walk now files st).2) = [] ∧
  timers (uploadArgumentsFiles flags walk now files st).2 = timers st ∧
  db (uploadArgumentsFiles flags walk now files st).2 = db st.
Proof.
  assert (H : ∃ added,
    trace (uploadArgumentsFiles flags walk now files st).2 = trace st ++ added ∧
    timers (uploadArgumentsFiles flags walk now files st).2 = timers st ∧
    db (uploadArgumentsFiles flags walk now files st).2 = db st ∧
    uploadsIn added
      = (filter (enqueueable flags) (beforeNil (concat (walk <$> files)))).*1 ∧
    watchesIn added = [] ∧
    (uploadArgumentsFiles flags walk now files st).1 = hasNil (concat (walk <$> files))).
  { revert st. induction files as [|name files IH]; intros st; simpl.
    - exists []. by rewrite app_nil_r.
    - destruct (uploadVisits_added flags now (walk name) st)
        as (a1 & Htr1 & Ht1 & Hd1 & Hu1 & Hw1 & Hp1).
      rewrite hasNil_app, beforeNil_app.
      destruct (uploadVisits flags now (walk name) st) as [panicked st1]. simpl in *.
      subst panicked. destruct (hasNil (walk name)); simpl.
      + exists a1. by split_and!.
      + destruct (IH st1) as (a2 & -> & -> & -> & Hu2 & Hw2 & ->).
        exists (a1 ++ a2). rewrite Htr1, Ht1, Hd1, app_assoc, uploadsIn_app, watchesIn_app.
        rewrite Hu1, Hu2, Hw1, Hw2, filter_app, fmap_app. done. }
  destruct H as (added & Htr & Ht & Hd & Hu & Hw & Hp).
  by rewrite (since_app _ _ _ Htr).
Qed.

(** ** [startToWatch] *)

Lemma watchVisits_walkEntries flags os now visits : ∀ st,
  watchVisits flags os now visits st
  = (if (walkEntries flags os now (beforeNil visits) st).1 then Failed
     else if hasNil visits then Panicked else Fine,
     (walkEntries flags os now (beforeNil visits) st).2).
Proof.
  induction visits as [|[path [file|]] visits IH]; intros st; simpl; [done | | done].
  destruct (watchWalkFn flags os now path file st) as [[] st1]; [done|]. apply IH.
Qed.

Lemma beforeNil_withInfo (entries : list (string * FileInfo)) :
  beforeNil ((λ e, (e.1, Some e.2)) <$> entries) = entries ∧
  hasNil ((λ e, (e.1, Some e.2)) <$> entries) = false.
Proof.
  induction entries as [|[path file] entries [IH1 IH2]]; [done|].
  split; [|exact IH2].
  change (beforeNil ((λ e, (e.1, Some e.2)) <$> (path, file) :: entries))
    with ((path, file) :: beforeNil ((λ e, (e.1, Some e.2)) <$> entries)).
  by rewrite IH1.
Qed.

(** X3: [startToWatch], the calls of [filepath.Walk] taken as they come.
    Watching recursively, it adds the directories that match no ignore
    pattern, in the order of the calls, until the watcher refuses one or a
    call comes with a nil [FileInfo], whichever is first: at a refusal the
    result is the error, the directories before it are watched and nothing
    after it is tried; at a nil [FileInfo], as for a root that does not
    exist, it panics; otherwise the result is nil.  Not recursively, it
    adds the path itself without asking the ignore patterns or the file
    system, and the result is the watcher's.  On a walk whose calls all
    come with a [FileInfo] it is the function the timer function calls. *)
Theorem startToWatch_until_refused flags os now visits filePath st :
  (watchRecursively flags = true →
   ∃ accepted rest,
     (filter (watchable flags) (beforeNil visits)).*1 = accepted ++ rest ∧
     watchesIn (since st (startToWatchFrom flags os now visits filePath st).2) = accepted ∧
     Forall (λ q, AddErr (os now) q = false) accepted ∧
     match rest with
     | [] =>
         (startToWatchFrom flags os now visits filePath st).1
         = if hasNil visits then Panicked else Fine
     | q :: _ =>
         AddErr (os now) q = true ∧
         (startToWatchFrom flags os now visits filePath st).1 = Failed
     end) ∧
  (watchRecursively flags = false →
   (startToWatchFrom flags os now visits filePath st).1
     = (if AddErr (os now) filePath then Failed else Fine) ∧
   watchesIn (since st (startToWatchFrom flags os now visits filePath st).2)
     = if AddErr (os now) filePath then [] else [filePath]) ∧
  startToWatchFrom flags os now ((λ e, (e.1, Some e.2)) <$> Walk (os now) filePath) filePath st
  = (if (startToWatch flags os now filePath st).1 then Failed else Fine,
     (startToWatch flags os now filePath st).2).
Proof.
  unfold startToWatchFrom, startToWatch. split_and!.
  - intros ->. rewrite watchVisits_walkEntries. simpl.
    destruct (walkEntries_refusal flags os now (beforeNil visits) st)
      as (acc & rest & Hsplit & Hwatch & Hok & Hrest).
    exists acc, rest. split_and!; try done.
    destruct rest as [|q rest]; [by rewrite Hrest | by destruct Hrest as [? ->]].
  - intros ->. unfold fsWatcher_Add. destruct (AddErr (os now) filePath); simpl.
    + by rewrite since_same.
    + by rewrite (since_app _ _ [(now, WatcherAdd filePath)]).
  - destruct (watchRecursively flags).
    + rewrite watchVisits_walkEntries.
      destruct (beforeNil_withInfo (Walk (os now) filePath)) as [-> ->].
      by destruct (walkEntries _ _ _ _ _).1.
    + unfold fsWatcher_Add. by destruct (AddErr (os now) filePath).
Qed.

(** A root that went away: the one call of the walk comes with a nil
    [FileInfo], and [startToWatch] panics. *)
Lemma startToWatch_until_refused_witness :
  (startToWatchFrom sample.flags sample.os 0 [("/watch/gone", None)] "/watch/gone" initial).1
  = Panicked.
Proof.
  destruct (startToWatch_until_refused sample.flags sample.os 0 [("/watch/gone", None)]
              "/watch/gone" initial) as (H & _ & _).
  destruct (H eq_refl) as (acc & rest & Hsplit & _ & _ & Hrest).
  change ([] = acc ++ rest) in Hsplit. symmetry in Hsplit.
  apply app_eq_nil in Hsplit as [_ ->]. exact Hrest.
Defined.

(** ** [handleFileChange] and the loop around it *)

Section Watcher.

Variable flags : Flags.
Variable os : Z → FileSystem.
Variable zeroStatus : models.FileStatus.

(** What one call of [handleFileChange] can append and do to the store. *)
Lemma handleFileChange_effects now event st :
  let name := fsnotify.Name event in
  let st' := handleFileChange flags zeroStatus now event st in
  (trace st' = trace st ∧ db st' = db st) ∨
  (trace st' = trace st ++ [(now, LogIgnored name)] ∧ db st' = db st) ∨
  (isRemoveOrRename (fsnotify.Op_ event) = true ∧ timers st !! name = None ∧
   db st' = delete name (db st) ∧
   (trace st' = trace st ++ [(now, DbDelete name); (now, PrintDeleted name)] ∨
    trace st' = trace st ++ [(now, DbCreate name); (now, DbDelete name);
                             (now, PrintDeleted name)])).
Proof.
  cbv zeta. unfold handleFileChange. cbv zeta.
  destruct (timers st !! fsnotify.Name event) as [timer|] eqn:Ht.
  - left. simpl. by destruct (_ && _).
  - rewrite guard_negb. destruct (isRemoveOrRename _) eqn:Hop; simpl.
    2: { by left. }
    unfold isRemoveOrRename in Hop. rewrite orb_comm in Hop. rewrite Hop.
    unfold checkIgnore. destruct (matchAny _ _); simpl.
    + right. by left.
    + right. right. rewrite orb_comm in Hop.
      unfold FirstOrCreate. destruct (db st !! fsnotify.Name event) eqn:Hdb; simpl.
      * split_and!; try done. left. by rewrite <- app_assoc.
      * split_and!; try done.
        -- by rewrite delete_insert_eq.
        -- right. by rewrite <- !app_assoc.
Qed.

(** X4: a notification with a name that is not empty changes no timer and
    no record of another path, the inserts and deletes it sends to the
    table are of its own path, and [handleFileChange] itself enqueues no
    upload and adds no watch. *)
Theorem handleFileChange_frame now event st :
  fsnotify.Name event ≠ "" →
  (∀ p, p ≠ fsnotify.Name event →
        timers (handleFileChange flags zeroStatus now event st) !! p = timers st !! p ∧
        db (handleFileChange flags zeroStatus now event st) !! p = db st !! p) ∧
  Forall (λ p, p = fsnotify.Name event)
    (tableStatements (since st (handleFileChange flags zeroStatus now event st))) ∧
  uploadsIn (since st (handleFileChange flags zeroStatus now event st)) = [] ∧
  watchesIn (since st (handleFileChange flags zeroStatus now event st)) = [].
Proof.
  intros _.
  pose proof (handleFileChange_effects now event st) as H. cbv zeta in H.
  split_and!.
  - intros p Hp. split; [by apply handleFileChange_other|].
    destruct H as [[_ ->]|[[_ ->]|(_ & _ & -> & _)]]; try done.
    by rewrite lookup_delete_ne.
  - destruct H as [[Htr _]|[[Htr _]|(_ & _ & _ & [Htr|Htr])]];
      first [rewrite (since_same _ _ Htr) | rewrite (since_app _ _ _ Htr)];
      by repeat constructor.
  - destruct H as [[Htr _]|[[Htr _]|(_ & _ & _ & [Htr|Htr])]];
      first [by rewrite (since_same _ _ Htr) | by rewrite (since_app _ _ _ Htr)].
  - destruct H as [[Htr _]|[[Htr _]|(_ & _ & _ & [Htr|Htr])]];
      first [by rewrite (since_same _ _ Htr) | by rewrite (since_app _ _ _ Htr)].
Qed.

Lemma tableStatements_app tr1 tr2 :
  tableStatements (tr1 ++ tr2) = tableStatements tr1 ++ tableStatements tr2.
Proof. apply omap_app. Qed.

Lemma sends_refl Q st : sends Q st st.
Proof. exists []. rewrite app_nil_r. split; [done | constructor]. Qed.

Lemma sends_trans Q st1 st2 st3 : sends Q st1 st2 → sends Q st2 st3 → sends Q st1 st3.
Proof.
  intros (a & Ha & HQa) (b & Hb & HQb). exists (a ++ b).
  rewrite Hb, Ha, app_assoc, tableStatements_app. split; [done | by apply Forall_app].
Qed.

Lemma sends_mono (Q Q' : string → Prop) st st' :
  (∀ p, Q p → Q' p) → sends Q st st' → sends Q' st st'.
Proof.
  intros HQ (a & Ha & HQa). exists a. split; [done|]. by eapply Forall_impl.
Qed.

Lemma emit_sends Q now e st :
  match e with DbCreate _ | DbDelete _ => False | _ => True end →
  sends Q st (emit now e st).
Proof. intros He. exists [(now, e)]. split; [done|]. destruct e; by try constructor. Qed.

Lemma checkIgnore_sends Q now path st : sends Q st (checkIgnore flags now path st).2.
Proof.
  unfold checkIgnore. destruct (matchAny _ _); simpl;
    [by apply emit_sends | apply sends_refl].
Qed.

Lemma walkEntries_sends Q now entries : ∀ st, sends Q st (walkEntries flags os now entries st).2.
Proof.
  induction entries as [|[path file] entries IH]; intros st; simpl; [apply sends_refl|].
  assert (Hfn : sends Q st (watchWalkFn flags os now path file st).2).
  { unfold watchWalkFn. destruct (IsDir file); [|apply sends_refl].
    pose proof (checkIgnore_sends Q now path st) as Hc.
    destruct (checkIgnore flags now path st) as [ignore st1]. simpl in *.
    destruct ignore; simpl; [done|]. eapply sends_trans; [exact Hc|].
    unfold fsWatcher_Add. destruct (AddErr (os now) path); simpl;
      [apply sends_refl | by apply emit_sends]. }
  destruct (watchWalkFn flags os now path file st) as [[] st1]; simpl in *; [done|].
  eapply sends_trans; [exact Hfn | apply IH].
Qed.

(** A timer that fires sends nothing to the table. *)
Lemma timerFunc_sends Q now p st : sends Q st (timerFunc flags os now p st).
Proof.
  unfold timerFunc.
  eapply sends_trans; [by apply (emit_sends Q now (LogConsuming p))|].
  set (st0 := emit now (LogConsuming p) st).
  assert (Hwatch : ∀ st1, sends Q st0 st1 →
            sends Q st0 (if watchRecursively flags then (startToWatch flags os now p st1).2
                         else st1)).
  { intros st1 H1. destruct (watchRecursively flags) eqn:Hr; [|done].
    eapply sends_trans; [exact H1|]. unfold startToWatch. rewrite Hr.
    apply walkEntries_sends. }
  destruct (Stat (os now) p) as [info|]; [|by apply emit_sends].
  destruct (IsDir info); simpl.
  - apply Hwatch, sends_refl.
  - pose proof (checkIgnore_sends Q now p st0) as Hc.
    destruct (checkIgnore flags now p st0) as [ignore st1]. simpl in *.
    destruct ignore; simpl.
    + by apply Hwatch.
    + eapply sends_trans; [exact Hc | by apply emit_sends].
Qed.

Lemma advance_sends Q t st : sends Q st (advance flags os t st).
Proof.
  unfold advance. generalize (dueTimers t st). intros l. revert st.
  induction l as [|kt l IH]; intros st; [apply sends_refl|].
  simpl. eapply sends_trans; [|apply IH]. unfold fire.
  destruct (timerFunc_sends Q (when kt.2) kt.1
    (set_timers (insert kt.1 {| when := when kt.2; pending := false |}) st))
    as (added & Htr & HQ). by exists added.
Qed.

Lemma handleFileChange_sends now event st :
  sends (λ p, p = fsnotify.Name event ∧ isRemoveOrRename (fsnotify.Op_ event) = true)
    st (handleFileChange flags zeroStatus now event st).
Proof.
  pose proof (handleFileChange_effects now event st) as H. cbv zeta in H.
  destruct H as [[Htr _]|[[Htr _]|(Hop & _ & _ & [Htr|Htr])]].
  - exists []. rewrite app_nil_r. split; [done | constructor].
  - eexists. split; [exact Htr | constructor].
  - eexists. split; [exact Htr | by repeat constructor].
  - eexists. split; [exact Htr | by repeat constructor].
Qed.

(** X5: what the watcher sends to the table.  Over any run of the loop on
    notifications whose names are not empty, every insert or delete that
    a notification or a firing timer sends is of a path for which a remove
    or rename notification was received; a firing timer sends none. *)
Theorem watcher_deletes_only_removed_paths events stop st :
  Forall (λ te, fsnotify.Name te.2 ≠ "") events →
  Forall (λ p, ∃ te, te ∈ events ∧ fsnotify.Name te.2 = p ∧
                     isRemoveOrRename (fsnotify.Op_ te.2) = true)
    (tableStatements (since st (runUntil flags os zeroStatus events stop st))) ∧
  (∀ t, tableStatements (since st (advance flags os t st)) = []).
Proof.
  intros _. split.
  - assert (H : sends (λ p, ∃ te, te ∈ events ∧ fsnotify.Name te.2 = p ∧
                                 isRemoveOrRename (fsnotify.Op_ te.2) = true)
                  st (runUntil flags os zeroStatus events stop st)).
    { unfold runUntil. eapply sends_trans; [|apply advance_sends].
      revert st. induction events as [|[t event] rest IH]; intros st; [apply sends_refl|].
      rewrite run_cons.
      eapply sends_trans; [apply advance_sends|].
      eapply sends_trans.
      - eapply sends_mono; [|apply handleFileChange_sends].
        intros p [-> Hop]. exists (t, event). split; [left | done].
      - eapply sends_mono; [|apply IH].
        intros p (te & Hin & Hn & Hop). exists te. split; [by right | done]. }
    destruct H as (added & Htr & HQ). by rewrite (since_app _ _ _ Htr).
  - intros t. destruct (advance_sends (λ _, False) t st) as (added & Htr & HQ).
    rewrite (since_app _ _ _ Htr). destruct (tableStatements added) as [|q l]; [done|].
    by apply Forall_cons in HQ as [[] _].
Qed.

Lemma handleFileChange_keeps_timer p now event st :
  is_Some (timers st !! p) →
  is_Some (timers (handleFileChange flags zeroStatus now event st) !! p).
Proof.
  intros Hp. destruct (decide (fsnotify.Name event = p)) as [<-|Hn].
  - destruct Hp as [timer Ht]. unfold handleFileChange. cbv zeta. rewrite Ht. simpl.
    destruct (_ && _); simpl; rewrite lookup_insert_eq; eauto.
  - by rewrite handleFileChange_other.
Qed.

Lemma handleFileChange_no_timer p now event st :
  timers st !! p = None →
  (fsnotify.Name event = p → isRemoveOrRename (fsnotify.Op_ event) = true) →
  timers (handleFileChange flags zeroStatus now event st) !! p = None.
Proof.
  intros Hp Hop. destruct (decide (fsnotify.Name event = p)) as [Hn|Hn].
  - specialize (Hop Hn). subst p.
    rewrite handleFileChange_removal_no_timer by done. cbv zeta.
    unfold checkIgnore. destruct (matchAny _ _); simpl; [done|].
    unfold FirstOrCreate. by destruct (db st !! fsnotify.Name event).
  - by rewrite handleFileChange_other.
Qed.

Lemma advance_keeps_timer p t st :
  (is_Some (timers st !! p) → is_Some (timers (advance flags os t st) !! p)) ∧
  (timers st !! p = None → timers (advance flags os t st) !! p = None).
Proof.
  pose proof (advance_at flags os t st p) as H.
  destruct (timers st !! p) as [timer|].
  - split; [|done]. intros _. destruct (decide _); destruct H as [-> _]; eauto.
  - destruct H as [-> _]. split; [by intros [? ?] | done].
Qed.

(** X6: the timer map never loses an entry: a path that has a timer stored
    has one stored ever after, fired or not; and a path gets one only
    through a notification for it that is no removal or rename. *)
Theorem timers_are_never_removed p events stop st :
  (is_Some (timers st !! p) →
   is_Some (timers (runUntil flags os zeroStatus events stop st) !! p)) ∧
  (timers st !! p = None →
   Forall (λ te, fsnotify.Name te.2 = p → isRemoveOrRename (fsnotify.Op_ te.2) = true)
     events →
   timers (runUntil flags os zeroStatus events stop st) !! p = None).
Proof.
  unfold runUntil. split.
  - intros Hp. apply advance_keeps_timer. revert st Hp.
    induction events as [|[t event] rest IH]; intros st Hp; [done|].
    rewrite run_cons. apply IH, handleFileChange_keeps_timer. by apply advance_keeps_timer.
  - intros Hp Hall. apply advance_keeps_timer. revert st Hp.
    induction events as [|[t event] rest IH]; intros st Hp; [done|].
    apply Forall_cons in Hall as [Hev Hall]. simpl in Hev.
    rewrite run_cons. apply (IH Hall), handleFileChange_no_timer; [|done].
    by apply advance_keeps_timer.
Qed.

(** X7: only an operation that is exactly Remove or exactly Rename is
    handled as a removal.  Any other value of the bit set, such as Chmod
    or Remove together with another bit, is handled as a change of the
    file: the store and the trace are left as they are, and the timer of
    the name is armed, or set anew when it waits, or left spent when it has
    run or was stopped. *)
Theorem other_operations_arm_the_timer now event st :
  fsnotify.Op_ event ≠ fsnotify.Remove →
  fsnotify.Op_ event ≠ fsnotify.Rename →
  db (handleFileChange flags zeroStatus now event st) = db st ∧
  trace (handleFileChange flags zeroStatus now event st) = trace st ∧
  timers (handleFileChange flags zeroStatus now event st) !! fsnotify.Name event
  = Some (match timers st !! fsnotify.Name event with
          | Some timer =>
              if pending timer then AfterFunc now (eventDelay flags) else spent timer
          | None => AfterFunc now (eventDelay flags)
          end).
Proof.
  intros Hrm Hrn.
  assert (Hop : isRemoveOrRename (fsnotify.Op_ event) = false).
  { unfold isRemoveOrRename. apply orb_false_iff. split; by apply N.eqb_neq. }
  destruct (timers st !! fsnotify.Name event) as [timer|] eqn:Ht.
  - destruct (pending timer) eqn:Hp.
    + rewrite (handleFileChange_rearm _ _ now event st timer Ht Hp Hop).
      split_and!; try done; unfold handleFileChange; cbv zeta; rewrite Ht; simpl;
        by destruct (_ && _).
    + rewrite (handleFileChange_spent _ _ now event st timer Ht Hp).
      split_and!; try done; unfold handleFileChange; cbv zeta; rewrite Ht; simpl;
        by destruct (_ && _).
  - rewrite (handleFileChange_arm _ _ now event st Ht Hop).
    split_and!; try done; unfold handleFileChange; cbv zeta;
      by rewrite Ht, guard_negb, Hop.
Qed.

(** X8: once the timer stored for a path has run or was stopped, it stays
    so, and no notification for the path, of whatever kind and at whatever
    instant, leads to an upload of it. *)
Theorem spent_timer_is_final p events stop st timer :
  timers st !! p = Some timer →
  pending timer = false →
  uploadsOf p (since st (runUntil flags os zeroStatus events stop st)) = [] ∧
  timers (runUntil flags os zeroStatus events stop st) !! p = Some (spent timer).
Proof.
  intros Ht Hp. split.
  - apply uploadsOf_since; [apply runUntil_extends|].
    rewrite app_nil_r. by apply (spent_timer_never_uploads _ _ _ p events stop st timer).
  - unfold runUntil.
    destruct (spent_timer_run flags os zeroStatus p events st timer Ht Hp) as [Ht' _].
    pose proof (advance_at flags os stop (run flags os zeroStatus events st) p) as Hadv.
    rewrite Ht' in Hadv.
    rewrite decide_False in Hadv by (intros [? _]; simpl in *; congruence).
    by destruct Hadv as [-> _].
Qed.

(** X9: a remove or rename notification that is handled while the timer of
    its path waits stops the timer: no upload of the path is enqueued then
    or later in the run, whatever is notified afterwards. *)
Theorem removal_stops_the_upload t event rest stop st timer :
  timers st !! fsnotify.Name event = Some timer →
  isRemoveOrRename (fsnotify.Op_ event) = true →
  t < when timer →
  uploadsOf (fsnotify.Name event)
    (since st (runUntil flags os zeroStatus ((t, event) :: rest) stop st)) = [].
Proof.
  intros Ht Hop Hdue.
  apply uploadsOf_since; [apply runUntil_extends|]. rewrite app_nil_r.
  unfold runUntil. rewrite run_cons.
  pose proof (advance_at flags os t st (fsnotify.Name event)) as Hadv. rewrite Ht in Hadv.
  rewrite decide_False in Hadv by (intros [_ ?]; simpl in *; lia).
  destruct Hadv as [Ht1 Hu1].
  pose proof (handleFileChange_removal_with_timer flags zeroStatus t event _ _ Ht1 Hop) as Hh.
  fold (runUntil flags os zeroStatus rest stop
          (handleFileChange flags zeroStatus t event (advance flags os t st))).
  rewrite (spent_timer_never_uploads flags os zeroStatus (fsnotify.Name event) rest stop _
             (spent timer)).
  - by rewrite handleFileChange_uploadsOf.
  - rewrite Hh. simpl. apply lookup_insert_eq.
  - done.
Qed.

End Watcher.

(** Remove together with Rename in one event, on a path without a timer. *)
Lemma other_operations_arm_the_timer_witness :
  db (handleFileChange sample.flags models.FilePending 5
        (sample.notify (N.lor fsnotify.Remove fsnotify.Rename) sample.photo) sample.uploaded)
  = db sample.uploaded ∧
  timers (handleFileChange sample.flags models.FilePending 5
            (sample.notify (N.lor fsnotify.Remove fsnotify.Rename) sample.photo) sample.uploaded)
    !! sample.photo
  = Some {| when := 8; pending := true |}.
Proof.
  pose proof (other_operations_arm_the_timer sample.flags models.FilePending 5
                (sample.notify (N.lor fsnotify.Remove fsnotify.Rename) sample.photo)
                sample.uploaded) as H.
  destruct H as (Hd & _ & Ht); [by vm_compute | by vm_compute |].
  split; [exact Hd | exact Ht].
Defined.

(** A state in which the timer of the photo has run, and one in which it
    waits for the instant 3. *)
Lemma spent_timer_is_final_witness :
  uploadsOf sample.photo
    (since (set_timers (insert sample.photo {| when := 3; pending := false |}) initial)
       (runUntil sample.flags sample.os models.FilePending
          [(10, sample.notify fsnotify.Write sample.photo)] 100
          (set_timers (insert sample.photo {| when := 3; pending := false |}) initial)))
  = [].
Proof.
  apply (spent_timer_is_final sample.flags sample.os models.FilePending sample.photo
           [(10, sample.notify fsnotify.Write sample.photo)] 100
           (set_timers (insert sample.photo {| when := 3; pending := false |}) initial)
           {| when := 3; pending := false |}); reflexivity.
Defined.

Lemma removal_stops_the_upload_witness :
  uploadsOf sample.photo
    (since (set_timers (insert sample.photo {| when := 3; pending := true |}) initial)
       (runUntil sample.flags sample.os models.FilePending
          [(1, sample.notify fsnotify.Remove sample.photo);
           (2, sample.notify fsnotify.Create sample.photo)] 100
          (set_timers (insert sample.photo {| when := 3; pending := true |}) initial)))
  = [].
Proof.
  apply (removal_stops_the_upload sample.flags sample.os models.FilePending 1
           (sample.notify fsnotify.Remove sample.photo)
           [(2, sample.notify fsnotify.Create sample.photo)] 100
           (set_timers (insert sample.photo {| when := 3; pending := true |}) initial)
           {| when := 3; pending := true |}); [reflexivity | reflexivity | simpl; lia].
Defined.

(** A rename of the photo, which has a record and no timer, in a table
    that holds the records A, B and C as well. *)
Lemma handleFileChange_frame_witness :
  db (handleFileChange sample.flags models.FilePending 5
        (sample.notify fsnotify.Rename sample.photo)
        (sample.withTable (<[sample.photo := models.FileSuccess]> sample.table))) !! "B"
  = Some models.FileFailed.
Proof.
  pose proof (handleFileChange_frame sample.flags models.FilePending 5
                (sample.notify fsnotify.Rename sample.photo)
                (sample.withTable (<[sample.photo := models.FileSuccess]> sample.table)))
    as H.
  destruct H as (H & _); [discriminate|].
  destruct (H "B") as [_ ->]; [discriminate | reflexivity].
Defined.

(** The photo is written, uploaded and left alone; the other photo, which
    has no timer, is removed: the one delete is of the other photo. *)
Lemma watcher_deletes_only_removed_paths_witness :
  Forall (λ p, ∃ te,
            te ∈ [(0, sample.notify fsnotify.Write sample.photo);
                  (5, sample.notify fsnotify.Remove sample.other)] ∧
            fsnotify.Name te.2 = p ∧ isRemoveOrRename (fsnotify.Op_ te.2) = true)
    (tableStatements
       (since sample.uploaded
          (runUntil sample.flags sample.os models.FilePending
             [(0, sample.notify fsnotify.Write sample.photo);
              (5, sample.notify fsnotify.Remove sample.other)] 100 sample.uploaded))).
Proof.
  apply (watcher_deletes_only_removed_paths sample.flags sample.os models.FilePending
           [(0, sample.notify fsnotify.Write sample.photo);
            (5, sample.notify fsnotify.Remove sample.other)] 100 sample.uploaded).
  repeat constructor; discriminate.
Defined.

(** ** The two loops *)

Lemma wrap_small z : - 2 ^ 63 ≤ z < 2 ^ 63 → reporter.wrap z = z.
Proof. intros H. unfold reporter.wrap. rewrite Z.mod_small; lia. Qed.

Lemma countIf_cons {A} (f : A → bool) x l :
  countIf f (x :: l) = ((if f x then 1 else 0) + countIf f l)%nat.
Proof. unfold countIf. simpl. by destruct (f x). Qed.

(** X10: the counters of the reporter are the numbers of what it received.
    As long as no counter leaves the range of [int], after any sequence of
    communications each counter has grown by the number of values received
    from its channel, one acknowledgement was sent for each stop signal,
    and one line was logged for each outcome. *)
Theorem reporter_counts inbox s :
  - 2 ^ 63 ≤ reporter.uploadedFilesCount s →
  - 2 ^ 63 ≤ reporter.ignoredCount s →
  - 2 ^ 63 ≤ reporter.errorsCount s →
  reporter.uploadedFilesCount s + Z.of_nat (countIf isCompleted inbox) < 2 ^ 63 →
  reporter.ignoredCount s + Z.of_nat (countIf isIgnored inbox) < 2 ^ 63 →
  reporter.errorsCount s + Z.of_nat (countIf isFailed inbox) < 2 ^ 63 →
  reporter.uploadedFilesCount (loopState (reporter.handleUploaderEvents inbox s))
    = reporter.uploadedFilesCount s + Z.of_nat (countIf isCompleted inbox) ∧
  reporter.ignoredCount (loopState (reporter.handleUploaderEvents inbox s))
    = reporter.ignoredCount s + Z.of_nat (countIf isIgnored inbox) ∧
  reporter.errorsCount (loopState (reporter.handleUploaderEvents inbox s))
    = reporter.errorsCount s + Z.of_nat (countIf isFailed inbox) ∧
  reporter.acks (loopState (reporter.handleUploaderEvents inbox s))
    = (reporter.acks s + countIf isExiting inbox)%nat ∧
  length (reporter.log (loopState (reporter.handleUploaderEvents inbox s)))
    = (length (reporter.log s) + countIf isCompleted inbox + countIf isIgnored inbox
       + countIf isFailed inbox)%nat.
Proof.
  revert s. induction inbox as [|m inbox IH]; intros s Hu Hi He Hu' Hi' He'.
  - simpl. unfold countIf. simpl. split_and!; lia.
  - rewrite !countIf_cons in *.
    destruct m as [info|info|err|]; simpl in *;
      unfold reporter.incr; rewrite ?wrap_small by lia;
      (edestruct IH as (-> & -> & -> & -> & ->); simpl;
       [..| rewrite ?length_app; simpl; split_and!; lia]); simpl; lia.
Qed.

(** Two completed uploads, an ignored one and a stop signal in between. *)
Lemma reporter_counts_witness :
  reporter.uploadedFilesCount
    (loopState (reporter.handleUploaderEvents
       [reporter.Completed "a.jpg"; reporter.Ignored "b.txt"; reporter.Exiting;
        reporter.Completed "c.jpg"] reporter.zero))
  = 2.
Proof.
  apply (reporter_counts
           [reporter.Completed "a.jpg"; reporter.Ignored "b.txt"; reporter.Exiting;
            reporter.Completed "c.jpg"] reporter.zero); by vm_compute.
Defined.

(** X11: the loop of the watcher handles what it receives up to the first
    stop signal, sends its acknowledgement and returns, leaving what comes
    after the stop signal unread; before a stop signal it does not
    return. *)
Theorem watcher_loop_returns_at_stop flags os zeroStatus pre t post st :
  Forall (λ tm, tm.2 ≠ RecvExiting) pre →
  handleFileSystemEvents flags os zeroStatus pre st
  = Blocked (loopState (handleFileSystemEvents flags os zeroStatus pre st)) ∧
  handleFileSystemEvents flags os zeroStatus (pre ++ (t, RecvExiting) :: post) st
  = Returned
      (emit t AckExiting
         (advance flags os t (loopState (handleFileSystemEvents flags os zeroStatus pre st))))
      post.
Proof.
  revert st. induction pre as [|[t' m] pre IH]; intros st Hpre; [done|].
  apply Forall_cons in Hpre as [Hm Hpre]. simpl in Hm |- *.
  destruct m; [apply IH | apply IH | ]; done.
Qed.

Lemma watcher_loop_returns_at_stop_witness :
  handleFileSystemEvents sample.flags sample.os models.FilePending
    ([(0, RecvEvent (sample.notify fsnotify.Write sample.photo)); (1, RecvError "overflow")]
       ++ (5, RecvExiting) :: [(6, RecvEvent (sample.notify fsnotify.Write sample.other))])
    initial
  = Returned
      (emit 5 AckExiting
         (advance sample.flags sample.os 5
            (loopState (handleFileSystemEvents sample.flags sample.os models.FilePending
               [(0, RecvEvent (sample.notify fsnotify.Write sample.photo));
                (1, RecvError "overflow")] initial))))
      [(6, RecvEvent (sample.notify fsnotify.Write sample.other))].
Proof.
  apply (watcher_loop_returns_at_stop sample.flags sample.os models.FilePending
           [(0, RecvEvent (sample.notify fsnotify.Write sample.photo));
            (1, RecvError "overflow")] 5
           [(6, RecvEvent (sample.notify fsnotify.Write sample.other))] initial).
  repeat constructor; discriminate.
Defined.

(** ** The scraper of the at token *)

Section Scraper.

Import api.
Import Stdlib.Strings.Ascii.

Lemma findScript_found pre tag rest :
  Forall (λ tk, isTokenScript tk = false) pre →
  isTokenScript tag = true →
  findScript (pre ++ tag :: rest)
  = Ok (match rest with [] => "" | next :: _ => Data next end).
Proof.
  intros Hpre Htag. induction Hpre as [|tk pre Htk _ IH]; simpl.
  - rewrite Htag. by destruct rest.
  - by rewrite Htk.
Qed.

Lemma findScript_none page :
  Forall (λ tk, isTokenScript tk = false) page → findScript page = Err noScriptTag.
Proof.
  intros Hpage. induction Hpage as [|tk page Htk _ IH]; simpl; [done|]. by rewrite Htk.
Qed.

(** X12: [findScript] looks for the first start tag [script] with the
    attribute [data-id] equal to [_gd] and returns the data of the token
    right after it, whatever that token is; when the tag is the last token
    of the page it returns the empty string, and no error.  It returns its
    error exactly when the page has no such tag. *)
Theorem findScript_first_tag :
  (∀ pre tag rest,
     Forall (λ tk, isTokenScript tk = false) pre →
     isTokenScript tag = true →
     findScript (pre ++ tag :: rest)
     = Ok (match rest with [] => "" | next :: _ => Data next end)) ∧
  (∀ page,
     Forall (λ tk, isTokenScript tk = false) page →
     findScript page = Err noScriptTag).
Proof. split; [apply findScript_found | apply findScript_none]. Qed.

Lemma indexByte_ge c s : -1 ≤ indexByte c s < Z.of_nat (String.length s).
Proof.
  induction s as [|b s IH]; simpl; [lia|].
  destruct (Ascii.eqb b c); [lia|]. destruct (Z.ltb_spec (indexByte c s) 0); lia.
Qed.

Lemma append_cons b (s t : string) : String b s +:+ t = String b (s +:+ t).
Proof. reflexivity. Qed.

Lemma append_assoc_one (prefix rest : string) c :
  (prefix +:+ String c EmptyString) +:+ rest = prefix +:+ String c rest.
Proof.
  induction prefix as [|b prefix IH]; [done|]. rewrite !append_cons. by f_equal.
Qed.

Lemma indexByte_append c prefix rest :
  without c prefix →
  indexByte c (prefix +:+ String c rest) = Z.of_nat (String.length prefix).
Proof.
  induction prefix as [|b prefix IH].
  - intros _. change (indexByte c (String c rest) = 0). simpl. by rewrite Ascii.eqb_refl.
  - intros [Hb Hp]. rewrite append_cons. simpl.
    apply Ascii.eqb_neq in Hb. rewrite Hb, (IH Hp).
    destruct (Z.ltb_spec (Z.of_nat (String.length prefix)) 0); lia.
Qed.

Lemma indexByte_without c s : without c s → indexByte c s = -1.
Proof.
  induction s as [|b s IH]; simpl; [done|].
  intros [Hb Hs]. apply Ascii.eqb_neq in Hb. by rewrite Hb, (IH Hs).
Qed.

Lemma length_append (s1 s2 : string) :
  String.length (s1 +:+ s2) = (String.length s1 + String.length s2)%nat.
Proof.
  induction s1 as [|b s1 IH]; [done|]. rewrite append_cons. simpl. by rewrite IH.
Qed.

Lemma substring_prefix (body rest : string) :
  String.substring 0 (String.length body) (body +:+ rest) = body.
Proof.
  induction body as [|b body IH]; [by destruct rest|].
  rewrite append_cons. simpl. by rewrite IH.
Qed.

Lemma substring_skip (prefix s : string) n :
  String.substring (String.length prefix) n (prefix +:+ s) = String.substring 0 n s.
Proof.
  induction prefix as [|b prefix IH]; [done|]. rewrite append_cons. simpl. apply IH.
Qed.

Ltac slice_in_bounds :=
  match goal with
  | |- context [(?a <=? ?b) && (?c <=? ?d) && (?e <=? ?f)] =>
      rewrite (proj2 (Z.leb_le a b)), (proj2 (Z.leb_le c d)), (proj2 (Z.leb_le e f)) by lia
  end.

Lemma findTokenInScript_body web prefix body c :
  without "="%char prefix →
  findTokenInScript web (prefix +:+ String "="%char (body +:+ String c EmptyString))
  = ([body],
     match decodeToken web body with
     | inl err =>
         Err ("can't parse the JSON object that contains the at token (" +:+ err +:+ ")")
     | inr token => Ok token
     end).
Proof.
  intros Hp. unfold findTokenInScript, slice. cbv zeta.
    rewrite (indexByte_append _ _ _ Hp), !length_append.
  change (String.length (String "="%char (body +:+ String c EmptyString)))
    with (S (String.length (body +:+ String c EmptyString))).
  rewrite length_append. change (String.length (String c EmptyString)) with 1%nat.
  slice_in_bounds. cbn [andb].
  replace (Z.to_nat (Z.of_nat (String.length prefix) + 1))
    with (String.length (prefix +:+ String "="%char EmptyString))
    by (rewrite length_append; simpl; lia).
  rewrite <- (append_assoc_one prefix (body +:+ String c EmptyString) "="%char).
  rewrite substring_skip.
  replace (Z.to_nat _) with (String.length body) by lia.
  by rewrite substring_prefix.
Qed.

(** X13: [findTokenInScript] cuts the script after its first [=] and
    before its last byte.  It panics, on the slice, exactly when the first
    [=] is the last byte or the script is empty.  For a script of the form
    prefix [=] body c, the prefix without [=], what it logs and hands to
    the decoder is the body, and the result is the decoder's; for a script
    without [=] it is the script less its last byte. *)
Theorem findTokenInScript_slice web :
  (∀ script,
     (findTokenInScript web script).2 = Panic ↔
     indexByte "="%char script = Z.of_nat (String.length script) - 1) ∧
  (∀ prefix body c,
     without "="%char prefix →
     findTokenInScript web (prefix +:+ String "="%char (body +:+ String c EmptyString))
     = ([body],
        match decodeToken web body with
        | inl err =>
            Err ("can't parse the JSON object that contains the at token (" +:+ err +:+ ")")
        | inr token => Ok token
        end)) ∧
  (∀ body c,
     without "="%char (body +:+ String c EmptyString) →
     (findTokenInScript web (body +:+ String c EmptyString)).1 = [body]).
Proof.
  split_and!.
  - intros script. unfold findTokenInScript, slice. cbv zeta.
    pose proof (indexByte_ge "=" script) as Hi.
    destruct (_ && _) eqn:Hok; simpl.
    + apply andb_true_iff in Hok as [Hok _]. apply andb_true_iff in Hok as [_ Hok].
      apply Z.leb_le in Hok. split; [by destruct (decodeToken _ _) | lia].
    + split; [intros _ | done].
      apply andb_false_iff in Hok as [Hok|Hok]; [|apply Z.leb_gt in Hok; lia].
      apply andb_false_iff in Hok as [Hok|Hok]; apply Z.leb_gt in Hok; lia.
  - apply findTokenInScript_body.
  - intros body c Hw. unfold findTokenInScript, slice. cbv zeta.
    rewrite (indexByte_without _ _ Hw), length_append.
    change (String.length (String c EmptyString)) with 1%nat.
    slice_in_bounds. cbn [andb fst]. change (Z.to_nat (-1 + 1)) with 0%nat.
    replace (Z.to_nat _) with (String.length body) by lia.
    by rewrite substring_prefix.
Qed.

(** X14: [ScrapeNewAtToken] end to end.  A page whose tag is followed by a
    text of the form prefix [=] body c gives what the decoder makes of the
    body.  A page that ends right after the tag makes [findScript] return
    the empty script, on which [findTokenInScript] panics.  A page without
    the tag gives the error of [findScript], and nothing is logged. *)
Theorem ScrapeNewAtToken_outcomes web page :
  newRequest web = None →
  clientDo web = inr page →
  (∀ pre tag text rest prefix body c,
     page = pre ++ tag :: text :: rest →
     Forall (λ tk, isTokenScript tk = false) pre →
     isTokenScript tag = true →
     Data text = prefix +:+ String "="%char (body +:+ String c EmptyString) →
     without "="%char prefix →
     ScrapeNewAtToken web
     = ([body],
        match decodeToken web body with
        | inl err =>
            Err ("can't parse the JSON object that contains the at token (" +:+ err +:+ ")")
        | inr token => Ok token
        end)) ∧
  (∀ pre tag,
     page = pre ++ [tag] →
     Forall (λ tk, isTokenScript tk = false) pre →
     isTokenScript tag = true →
     ScrapeNewAtToken web = ([], Panic)) ∧
  (Forall (λ tk, isTokenScript tk = false) page →
   ScrapeNewAtToken web = ([], Err noScriptTag)).
Proof.
  intros Hreq Hdo. unfold ScrapeNewAtToken, getHomePage. rewrite Hreq, Hdo.
  split_and!.
  - intros pre tag text rest prefix body c -> Hpre Htag Hdata Hp.
    rewrite (findScript_found pre tag (text :: rest) Hpre Htag), Hdata.
    by apply findTokenInScript_body.
  - intros pre tag -> Hpre Htag. by rewrite (findScript_found pre tag [] Hpre Htag).
  - intros Hpage. by rewrite (findScript_none page Hpage).
Qed.

End Scraper.

Section ScraperSample.

Import Stdlib.Strings.Ascii.

(** The sample page: the script without [data-id] is passed over, the
    text after the tagged one is cut to its body and decoded. *)
Lemma findScript_first_tag_witness :
  api.findScript samplePage.page = api.Ok "window.WIZ_global_data = {at};".
Proof.
  destruct findScript_first_tag as [H _].
  apply (H [samplePage.head; samplePage.plainScript; samplePage.close] samplePage.tag
           [samplePage.text; samplePage.close]); [repeat constructor | reflexivity].
Defined.

Lemma findTokenInScript_slice_witness :
  api.findTokenInScript samplePage.web "window.WIZ_global_data = {at};"
  = ([" {at}"], api.Ok "AKd3").
Proof.
  destruct (findTokenInScript_slice samplePage.web) as (_ & H & _).
  apply (H "window.WIZ_global_data " " {at}" ";"%char). by vm_compute.
Defined.

Lemma ScrapeNewAtToken_outcomes_witness :
  api.ScrapeNewAtToken samplePage.web = ([" {at}"], api.Ok "AKd3").
Proof.
  destruct (ScrapeNewAtToken_outcomes samplePage.web samplePage.page eq_refl eq_refl)
    as (H & _ & _).
  apply (H [samplePage.head; samplePage.plainScript; samplePage.close] samplePage.tag
           samplePage.text [samplePage.close] "window.WIZ_global_data " " {at}" ";"%char);
    [reflexivity | repeat constructor | reflexivity | reflexivity | by vm_compute].
Defined.

End ScraperSample.

(** ** The database handle *)

Lemma GetInstance_done opened migrateErr p :
  orm.onceDone p = true →
  orm.GetInstance opened migrateErr p = (orm.instance p, p).
Proof. intros H. unfold orm.GetInstance. by rewrite H. Qed.

Lemma calls_done answers p :
  orm.onceDone p = true →
  orm.calls answers p = (replicate (length answers) (orm.instance p), p).
Proof.
  intros H. induction answers as [|[opened migrateErr] answers IH]; [done|].
  simpl. by rewrite (GetInstance_done _ _ _ H), IH.
Qed.

(** X15: [GetInstance] opens the database on the first call and never
    again, and every later call returns the connection the first call
    stored, whatever [gorm.Open] would answer by then.  The first call
    panics exactly when [gorm.Open] reports an error; a later call then
    still returns the stored connection and does not open again.  The
    result of [AutoMigrate] is not looked at. *)
Theorem database_is_opened_once opened migrateErr later :
  (orm.calls ((opened, migrateErr) :: later) orm.start).1
  = (if orm.openErr opened is Some _ then None else Some (orm.connection opened))
    :: replicate (length later) (Some (orm.connection opened)) ∧
  orm.opens (orm.calls ((opened, migrateErr) :: later) orm.start).2 = 1%nat ∧
  orm.migrations (orm.calls ((opened, migrateErr) :: later) orm.start).2
  = (if orm.openErr opened is Some _ then 0 else 1)%nat.
Proof.
  simpl. unfold orm.GetInstance, orm.openDatabase. simpl.
  destruct (orm.openErr opened); rewrite calls_done by done; done.
Qed.

(** ** The delay *)

(** X16: the delay given in seconds is converted to nanoseconds without
    loss for every number of seconds from -9223372036 to 9223372036.  A
    timer armed with it at an instant that is not negative, the instant
    plus the delay staying below 2^63 nanoseconds as the runtime's own sum
    needs, is due that many seconds later, or at once when the delay is
    not positive.  One second above the range the product leaves the 64
    bits: the delay becomes negative and the timer is due at once. *)
Theorem durationOfSeconds_exact delay now :
  (-9223372036 ≤ delay ≤ 9223372036 → durationOfSeconds delay = delay * Second) ∧
  (-9223372036 ≤ delay ≤ 9223372036 →
   0 ≤ now →
   now + delay * Second < 2 ^ 63 →
   when (AfterFunc now (durationOfSeconds delay))
   = (if delay <=? 0 then now else now + delay * Second)) ∧
  durationOfSeconds 9223372037 < 0 ∧
  when (AfterFunc now (durationOfSeconds 9223372037)) = now.
Proof.
  assert (He : -9223372036 ≤ delay ≤ 9223372036 → durationOfSeconds delay = delay * Second).
  { intros Hd. unfold durationOfSeconds, Second. apply wrap_small. lia. }
  split_and!; try done.
  intros Hd _ _. rewrite (He Hd). unfold AfterFunc, runtime_when, Second. simpl.
  destruct (Z.leb_spec (delay * 1000000000) 0), (Z.leb_spec delay 0); lia.
Qed.

Lemma durationOfSeconds_exact_witness :
  durationOfSeconds 3 = 3000000000 ∧
  when (AfterFunc 7 (durationOfSeconds 3)) = 3000000007.
Proof.
  destruct (durationOfSeconds_exact 3 7) as (H1 & H2 & _).
  split; [apply H1; lia | apply H2; [lia | lia | by vm_compute]].
Defined.
